(** * A shallow embedding of the tokenizer of blog.vanloo.ch (tokenizer.go)

    The Go tokenizer is a state machine whose states are method values of
    type [tokFunc]; each method reads and mutates the [Tokenizer] (cursor
    and token buffer) and returns the next state.  Here every method is a
    function on an explicit [Tokenizer] record, a Go [panic] is the [Panic]
    constructor of [result], and the driving loop of [Tokenize] is a
    fuel-indexed iteration whose fuel is proved sufficient. *)

From Stdlib Require Import ZArith String Ascii List Bool Arith Lia.
From Stdlib Require Import DecimalString.
Import ListNotations.

Local Open Scope string_scope.
Local Open Scope list_scope.
Local Open Scope nat_scope.

(** ** Runes and Go's [string([]rune)] conversion *)

(** A Go [rune] is an [int32] code point; no arithmetic is done on runes,
    they are only compared with constants. *)
Definition rune := Z.

(** Go's [len] on slices ([String.length] hides the list one). *)
Abbreviation len := Datatypes.length (only parsing).

Module Rune.
Definition lparen : rune := 40%Z.      (* '(' *)
Definition rparen : rune := 41%Z.      (* ')' *)
Definition plus : rune := 43%Z.        (* '+' *)
Definition backslash : rune := 92%Z.   (* '\\' *)

Definition byte (z : Z) : ascii := ascii_of_N (Z.to_N z).

(** UTF-8 encoding of one rune, as the conversion [string(r)] performs it:
    surrogates and values outside the Unicode range become U+FFFD. *)
Definition encode (r : rune) : string :=
  (if (r <? 0) || (1114111 <? r) || ((55296 <=? r) && (r <=? 57343)) then
     String (byte 239) (String (byte 191) (String (byte 189) EmptyString))
   else if r <? 128 then
     String (byte r) EmptyString
   else if r <? 2048 then
     String (byte (Z.lor 192 (Z.shiftr r 6)))
       (String (byte (Z.lor 128 (Z.land r 63))) EmptyString)
   else if r <? 65536 then
     String (byte (Z.lor 224 (Z.shiftr r 12)))
       (String (byte (Z.lor 128 (Z.land (Z.shiftr r 6) 63)))
          (String (byte (Z.lor 128 (Z.land r 63))) EmptyString))
   else
     String (byte (Z.lor 240 (Z.shiftr r 18)))
       (String (byte (Z.lor 128 (Z.land (Z.shiftr r 12) 63)))
          (String (byte (Z.lor 128 (Z.land (Z.shiftr r 6) 63)))
             (String (byte (Z.lor 128 (Z.land r 63))) EmptyString))))%Z.

(** [string(rs)] for a rune slice [rs]. *)
Fixpoint to_string (rs : list rune) : string :=
  match rs with
  | [] => EmptyString
  | r :: rs' => (encode r ++ to_string rs')%string
  end.

(** [[]rune(s)] for a string [s] of ASCII characters (used to write
    inputs down; each byte below 128 is its own code point). *)
Fixpoint of_ascii (s : string) : list rune :=
  match s with
  | EmptyString => []
  | String a s' => Z.of_N (N_of_ascii a) :: of_ascii s'
  end.
End Rune.

(** ** Tokens *)

Inductive TokenType : Type :=
| TypeFormStart
| TypeAtom
| TypeText
| TypeFormEnd.

(** [Type] is a keyword, so the field [Type] of the Go struct is [Typ]. *)
Record Token : Type := mkToken {
  Typ : TokenType;
  Text : string;
  Pos : nat
}.

(** ** The tokenizer *)

(** The eight methods that are used as [tokFunc] values; Go's [nil]
    function value is [None] in [option tokFunc]. *)
Inductive tokFunc : Type :=
| FnTextOrForm
| FnText
| FnForm
| FnNilOrAtom
| FnNil
| FnAtom
| FnNilOrTextOrForm
| FnEOF.

Record Tokenizer : Type := mkTokenizer {
  bs : list rune;
  pos : nat;
  tokens : list Token;
  state : option tokFunc
}.

Definition NewTokenizer (input : list rune) : Tokenizer :=
  {| bs := input; pos := 0; tokens := []; state := None |}.

(** A method either returns or panics with a message. *)
Inductive result (A : Type) : Type :=
| Ok (a : A)
| Panic (msg : string).
Arguments Ok {A} a.
Arguments Panic {A} msg.

(** [s[i]].  Every index expression of the source is guarded by a test
    [i < len(s)] on its left, so the default value is never read. *)
Definition index (s : list rune) (i : nat) : rune := nth i s 0%Z.

(** [s[lo:hi]]. *)
Definition slice (s : list rune) (lo hi : nat) : list rune :=
  firstn (hi - lo) (skipn lo s).

Definition set_pos (t : Tokenizer) (p : nat) : Tokenizer :=
  {| bs := bs t; pos := p; tokens := tokens t; state := state t |}.

Definition set_state (t : Tokenizer) (f : option tokFunc) : Tokenizer :=
  {| bs := bs t; pos := pos t; tokens := tokens t; state := f |}.

(** [t.tokens = append(t.tokens, toks...)] *)
Definition append (t : Tokenizer) (toks : list Token) : Tokenizer :=
  {| bs := bs t; pos := pos t; tokens := tokens t ++ toks; state := state t |}.

(** *** Character classes *)

Definition isWhitespace (r : rune) : bool :=
  let ws : list rune := [32; 10; 13; 9; 11; 12]%Z in
  existsb (Z.eqb r) ws.

Definition isAlpha (r : rune) : bool :=
  ((97 <=? r) && (r <=? 122) || (r =? 45))%Z.

Definition isNum (r : rune) : bool :=
  ((48 <=? r) && (r <=? 57))%Z.

Definition isAlphaNum (r : rune) : bool :=
  isAlpha r || isNum r.

(** *** The inner loops

    Each loop of the source moves an index towards [len(t.bs)]; the fuel
    of its model is the distance that is left, which the loop cannot
    exceed (see [skipLoop_fuel], [atomLoop_fuel] and [textLoop_fuel]). *)

(** [for t.pos < len(t.bs) && isWhitespace(t.bs[t.pos]) { t.pos++ }] *)
Fixpoint skipLoop (fuel : nat) (s : list rune) (p : nat) : nat :=
  match fuel with
  | 0 => p
  | S fuel' =>
      if (p <? len s) && isWhitespace (index s p)
      then skipLoop fuel' s (p + 1)
      else p
  end.

Definition skipWhitespace (t : Tokenizer) : Tokenizer :=
  set_pos t (skipLoop (len (bs t) - pos t) (bs t) (pos t)).

(** [for atomEnd < len(t.bs) && isAlphaNum(t.bs[atomEnd]) { atomEnd++ }] *)
Fixpoint atomLoop (fuel : nat) (s : list rune) (atomEnd : nat) : nat :=
  match fuel with
  | 0 => atomEnd
  | S fuel' =>
      if (atomEnd <? len s) && isAlphaNum (index s atomEnd)
      then atomLoop fuel' s (atomEnd + 1)
      else atomEnd
  end.

(** The scanning loop of [tokText], with its two local variables. *)
Fixpoint textLoop (fuel : nat) (s : list rune) (textEnd : nat) (quoted : bool)
  : result nat :=
  match fuel with
  | 0 => Ok textEnd
  | S fuel' =>
      if (textEnd <? len s)
         && ((negb (index s textEnd =? Rune.rparen)%Z
              && negb (index s textEnd =? Rune.lparen)%Z) || quoted)
      then
        if (index s textEnd =? Rune.backslash)%Z then
          if (textEnd + 1 <? len s)
             && ((index s (textEnd + 1) =? Rune.lparen)%Z
                 || (index s (textEnd + 1) =? Rune.rparen)%Z
                 || (index s (textEnd + 1) =? Rune.backslash)%Z)
          then textLoop fuel' s (textEnd + 1 + 1) quoted
          else if (textEnd + 1 <? len s)
                  && (index s (textEnd + 1) =? Rune.plus)%Z
          then textLoop fuel' s (textEnd + 1 + 1) (negb quoted)
          else Panic "invalid escape character"
        else textLoop fuel' s (textEnd + 1) quoted
      else Ok textEnd
  end.

(** *** The state methods

    Each returns the next [tokFunc] (or [nil]) and the mutated tokenizer. *)

Definition tokTextOrForm (t : Tokenizer) : result (option tokFunc * Tokenizer) :=
  let t := skipWhitespace t in
  if len (bs t) <=? pos t then Ok (Some FnEOF, t)
  else if (index (bs t) (pos t) =? Rune.lparen)%Z then Ok (Some FnForm, t)
  else Ok (Some FnText, t).

Definition tokText (t : Tokenizer) : result (option tokFunc * Tokenizer) :=
  let t := skipWhitespace t in
  if len (bs t) <=? pos t then Ok (Some FnEOF, t)
  else
    match textLoop (len (bs t) - pos t) (bs t) (pos t) false with
    | Panic msg => Panic msg
    | Ok textEnd =>
        let t := append t [ {| Typ := TypeText;
                               Text := Rune.to_string (slice (bs t) (pos t) textEnd);
                               Pos := pos t |} ] in
        let t := set_pos t textEnd in
        Ok (Some FnNilOrTextOrForm, t)
    end.

Definition tokForm (t : Tokenizer) : result (option tokFunc * Tokenizer) :=
  let t := append t [ {| Typ := TypeFormStart; Text := "("; Pos := pos t |} ] in
  let t := set_pos t (pos t + 1) in
  Ok (Some FnNilOrAtom, t).

Definition tokNilOrAtom (t : Tokenizer) : result (option tokFunc * Tokenizer) :=
  let t := skipWhitespace t in
  if len (bs t) <=? pos t then Ok (Some FnEOF, t)
  else
    let r := index (bs t) (pos t) in
    if (r =? Rune.lparen)%Z then
      Panic "invalid: cannot start form / expected atom or nil"
    else if (r =? Rune.rparen)%Z then Ok (Some FnNil, t)
    else Ok (Some FnAtom, t).

Definition tokNil (t : Tokenizer) : result (option tokFunc * Tokenizer) :=
  let t := append t [ {| Typ := TypeFormEnd; Text := ")"; Pos := pos t |} ] in
  let t := set_pos t (pos t + 1) in
  Ok (Some FnNilOrTextOrForm, t).

Definition tokAtom (t : Tokenizer) : result (option tokFunc * Tokenizer) :=
  let atomEnd := atomLoop (len (bs t) - pos t) (bs t) (pos t) in
  let t := append t [ {| Typ := TypeAtom;
                         Text := Rune.to_string (slice (bs t) (pos t) atomEnd);
                         Pos := pos t |} ] in
  let t := set_pos t atomEnd in
  Ok (Some FnNilOrTextOrForm, t).

Definition tokNilOrTextOrForm (t : Tokenizer) : result (option tokFunc * Tokenizer) :=
  let t := skipWhitespace t in
  if len (bs t) <=? pos t then Ok (Some FnEOF, t)
  else
    let r := index (bs t) (pos t) in
    if (r =? Rune.rparen)%Z then Ok (Some FnNil, t)
    else if (r =? Rune.lparen)%Z then Ok (Some FnForm, t)
    else Ok (Some FnText, t).

Definition tokEOF (t : Tokenizer) : result (option tokFunc * Tokenizer) :=
  let t := append t [ {| Typ := TypeFormStart; Text := "("; Pos := pos t |};
                      {| Typ := TypeAtom; Text := "eof"; Pos := pos t |};
                      {| Typ := TypeFormEnd; Text := ")"; Pos := pos t |} ] in
  Ok (None, t).

(** Calling a [tokFunc] value: [t.state()]. *)
Definition call (f : tokFunc) (t : Tokenizer) : result (option tokFunc * Tokenizer) :=
  match f with
  | FnTextOrForm => tokTextOrForm t
  | FnText => tokText t
  | FnForm => tokForm t
  | FnNilOrAtom => tokNilOrAtom t
  | FnNil => tokNil t
  | FnAtom => tokAtom t
  | FnNilOrTextOrForm => tokNilOrTextOrForm t
  | FnEOF => tokEOF t
  end.

(** *** The driver *)

(** What a call of [Tokenize] does: it returns its pair of results, or a
    method panics; [OutOfFuel] is the model running out of iterations,
    which [Tokenize_halts] excludes. *)
Inductive outcome : Type :=
| Returned (toks : list Token) (err : option string)
| Panicked (msg : string)
| OutOfFuel.

(** [for t.pos < l && t.state != nil { t.state = t.state() }], followed by
    [return t.tokens, nil]. *)
Fixpoint loop (fuel : nat) (l : nat) (t : Tokenizer) : outcome :=
  match state t with
  | Some f =>
      if pos t <? l then
        match fuel with
        | 0 => OutOfFuel
        | S fuel' =>
            match call f t with
            | Panic msg => Panicked msg
            | Ok (f', t') => loop fuel' l (set_state t' f')
            end
        end
      else Returned (tokens t) None
  | None => Returned (tokens t) None
  end.

(** The method [Tokenize], run for at most [fuel] transitions. *)
Definition TokenizeFuel (fuel : nat) (t : Tokenizer) : outcome :=
  let l := len (bs t) in
  let t := set_state t (Some FnTextOrForm) in
  loop fuel l t.

(** Three transitions for each rune that is left, and one more, are always
    enough ([Tokenize_halts]). *)
Definition Tokenize (t : Tokenizer) : outcome :=
  TokenizeFuel (3 * (len (bs t) - pos t) + 1) t.

(** [NewTokenizer(input).Tokenize()] *)
Definition tokenize (input : list rune) : outcome :=
  Tokenize (NewTokenizer input).

(** ** The methods with Go's range checks

    In Go an index expression [s[i]] panics unless [0 <= i < len(s)], and
    a slice expression [s[lo:hi]] panics unless [0 <= lo <= hi <= cap(s)].
    [index] and [slice] above are total.  Here the loops and the methods
    that read the input are written once more with every index and slice
    expression checked where the source evaluates it: the operands of
    [&&] and [||] from left to right and only as far as the result needs
    them.  The slice is checked against [len(s)], which [cap(s)] is not
    below.  [callC_call] shows that the checks never fail. *)

Definition bind {A B : Type} (m : result A) (k : A -> result B) : result B :=
  match m with
  | Ok a => k a
  | Panic msg => Panic msg
  end.

Local Notation "'do' x <- m ; k" := (bind m (fun x => k))
  (at level 10, x name, m at level 100, k at level 200).

(** [s[i]], checked. *)
Definition indexC (s : list rune) (i : nat) : result rune :=
  match nth_error s i with
  | Some r => Ok r
  | None => Panic "runtime error: index out of range"
  end.

(** [s[lo:hi]], checked. *)
Definition sliceC (s : list rune) (lo hi : nat) : result (list rune) :=
  if (lo <=? hi) && (hi <=? len s) then Ok (slice s lo hi)
  else Panic "runtime error: slice bounds out of range".

(** [for t.pos < len(t.bs) && isWhitespace(t.bs[t.pos]) { t.pos++ }] *)
Fixpoint skipLoopC (fuel : nat) (s : list rune) (p : nat) : result nat :=
  match fuel with
  | 0 => Ok p
  | S fuel' =>
      do c <- (if p <? len s then
                 do r <- indexC s p; Ok (isWhitespace r)
               else Ok false);
      if c then skipLoopC fuel' s (p + 1) else Ok p
  end.

Definition skipWhitespaceC (t : Tokenizer) : result Tokenizer :=
  do p <- skipLoopC (len (bs t) - pos t) (bs t) (pos t);
  Ok (set_pos t p).

(** [for atomEnd < len(t.bs) && isAlphaNum(t.bs[atomEnd]) { atomEnd++ }] *)
Fixpoint atomLoopC (fuel : nat) (s : list rune) (atomEnd : nat) : result nat :=
  match fuel with
  | 0 => Ok atomEnd
  | S fuel' =>
      do c <- (if atomEnd <? len s then
                 do r <- indexC s atomEnd; Ok (isAlphaNum r)
               else Ok false);
      if c then atomLoopC fuel' s (atomEnd + 1) else Ok atomEnd
  end.

(** The scanning loop of [tokText]; each occurrence of [t.bs[textEnd]]
    and [t.bs[textEnd+1]] in the source is one [indexC] here. *)
Fixpoint textLoopC (fuel : nat) (s : list rune) (textEnd : nat) (quoted : bool)
  : result nat :=
  match fuel with
  | 0 => Ok textEnd
  | S fuel' =>
      do c <- (if textEnd <? len s then
                 do r1 <- indexC s textEnd;
                 if negb (r1 =? Rune.rparen)%Z then
                   do r2 <- indexC s textEnd;
                   if negb (r2 =? Rune.lparen)%Z then Ok true else Ok quoted
                 else Ok quoted
               else Ok false);
      if c then
        do r <- indexC s textEnd;
        if (r =? Rune.backslash)%Z then
          do c1 <- (if textEnd + 1 <? len s then
                      do r1 <- indexC s (textEnd + 1);
                      if (r1 =? Rune.lparen)%Z then Ok true
                      else
                        do r2 <- indexC s (textEnd + 1);
                        if (r2 =? Rune.rparen)%Z then Ok true
                        else
                          do r3 <- indexC s (textEnd + 1);
                          Ok (r3 =? Rune.backslash)%Z
                    else Ok false);
          if c1 then textLoopC fuel' s (textEnd + 1 + 1) quoted
          else
            do c2 <- (if textEnd + 1 <? len s then
                        do r1 <- indexC s (textEnd + 1);
                        Ok (r1 =? Rune.plus)%Z
                      else Ok false);
            if c2 then textLoopC fuel' s (textEnd + 1 + 1) (negb quoted)
            else Panic "invalid escape character"
        else textLoopC fuel' s (textEnd + 1) quoted
      else Ok textEnd
  end.

Definition tokTextOrFormC (t : Tokenizer) : result (option tokFunc * Tokenizer) :=
  do t <- skipWhitespaceC t;
  if len (bs t) <=? pos t then Ok (Some FnEOF, t)
  else
    do r <- indexC (bs t) (pos t);
    if (r =? Rune.lparen)%Z then Ok (Some FnForm, t)
    else Ok (Some FnText, t).

Definition tokTextC (t : Tokenizer) : result (option tokFunc * Tokenizer) :=
  do t <- skipWhitespaceC t;
  if len (bs t) <=? pos t then Ok (Some FnEOF, t)
  else
    do textEnd <- textLoopC (len (bs t) - pos t) (bs t) (pos t) false;
    do text <- sliceC (bs t) (pos t) textEnd;
    let t := append t [ {| Typ := TypeText;
                           Text := Rune.to_string text;
                           Pos := pos t |} ] in
    let t := set_pos t textEnd in
    Ok (Some FnNilOrTextOrForm, t).

Definition tokNilOrAtomC (t : Tokenizer) : result (option tokFunc * Tokenizer) :=
  do t <- skipWhitespaceC t;
  if len (bs t) <=? pos t then Ok (Some FnEOF, t)
  else
    do r <- indexC (bs t) (pos t);
    if (r =? Rune.lparen)%Z then
      Panic "invalid: cannot start form / expected atom or nil"
    else if (r =? Rune.rparen)%Z then Ok (Some FnNil, t)
    else Ok (Some FnAtom, t).

Definition tokAtomC (t : Tokenizer) : result (option tokFunc * Tokenizer) :=
  do atomEnd <- atomLoopC (len (bs t) - pos t) (bs t) (pos t);
  do text <- sliceC (bs t) (pos t) atomEnd;
  let t := append t [ {| Typ := TypeAtom;
                         Text := Rune.to_string text;
                         Pos := pos t |} ] in
  let t := set_pos t atomEnd in
  Ok (Some FnNilOrTextOrForm, t).

Definition tokNilOrTextOrFormC (t : Tokenizer) : result (option tokFunc * Tokenizer) :=
  do t <- skipWhitespaceC t;
  if len (bs t) <=? pos t then Ok (Some FnEOF, t)
  else
    do r <- indexC (bs t) (pos t);
    if (r =? Rune.rparen)%Z then Ok (Some FnNil, t)
    else if (r =? Rune.lparen)%Z then Ok (Some FnForm, t)
    else Ok (Some FnText, t).

(** [tokForm], [tokNil] and [tokEOF] have no index or slice
    expression. *)
Definition callC (f : tokFunc) (t : Tokenizer) : result (option tokFunc * Tokenizer) :=
  match f with
  | FnTextOrForm => tokTextOrFormC t
  | FnText => tokTextC t
  | FnForm => tokForm t
  | FnNilOrAtom => tokNilOrAtomC t
  | FnNil => tokNil t
  | FnAtom => tokAtomC t
  | FnNilOrTextOrForm => tokNilOrTextOrFormC t
  | FnEOF => tokEOF t
  end.

(** The loop of [Tokenize] over the checked methods. *)
Fixpoint loopC (fuel : nat) (l : nat) (t : Tokenizer) : outcome :=
  match state t with
  | Some f =>
      if pos t <? l then
        match fuel with
        | 0 => OutOfFuel
        | S fuel' =>
            match callC f t with
            | Panic msg => Panicked msg
            | Ok (f', t') => loopC fuel' l (set_state t' f')
            end
        end
      else Returned (tokens t) None
  | None => Returned (tokens t) None
  end.

Definition TokenizeC (t : Tokenizer) : outcome :=
  let fuel := 3 * (len (bs t) - pos t) + 1 in
  let l := len (bs t) in
  let t := set_state t (Some FnTextOrForm) in
  loopC fuel l t.

Definition tokenizeC (input : list rune) : outcome :=
  TokenizeC (NewTokenizer input).

(** ** Rendering tokens for diagnostics: [visibleString] and [String] *)

(** The bytes of a Go string. *)
Fixpoint bytesOf (s : string) : list Z :=
  match s with
  | EmptyString => []
  | String a s' => Z.of_N (N_of_ascii a) :: bytesOf s'
  end.

(** [utf8.RuneError], the rune an invalid byte decodes to. *)
Definition RuneError : rune := 65533%Z.

(** Go's table [first] for a leading byte of a sequence of two to four
    bytes: the size of the sequence and the range the second byte has to
    be in; [None] for a byte that starts no sequence. *)
Definition leadByte (b0 : Z) : option (nat * Z * Z) :=
  (if (194 <=? b0) && (b0 <=? 223) then Some (2%nat, 128, 191)
   else if b0 =? 224 then Some (3%nat, 160, 191)
   else if (225 <=? b0) && (b0 <=? 236) then Some (3%nat, 128, 191)
   else if b0 =? 237 then Some (3%nat, 128, 159)
   else if (238 <=? b0) && (b0 <=? 239) then Some (3%nat, 128, 191)
   else if b0 =? 240 then Some (4%nat, 144, 191)
   else if (241 <=? b0) && (b0 <=? 243) then Some (4%nat, 128, 191)
   else if b0 =? 244 then Some (4%nat, 128, 143)
   else None)%Z.

(** A continuation byte: [0x80 <= b <= 0xBF]. *)
Definition contByte (b : Z) : bool := ((128 <=? b) && (b <=? 191))%Z.

(** The runes [for _, r := range s] yields over the bytes of [s]: a valid
    UTF-8 sequence gives its code point, and a byte that starts none gives
    [RuneError] and is stepped over alone. *)
Fixpoint decodeRunes (p : list Z) : list rune :=
  match p with
  | [] => []
  | b0 :: p1 =>
      if (b0 <? 128)%Z then b0 :: decodeRunes p1
      else
        match leadByte b0 with
        | None => RuneError :: decodeRunes p1
        | Some (sz, lo, hi) =>
            match p1 with
            | [] => RuneError :: decodeRunes p1
            | b1 :: p2 =>
                if ((b1 <? lo) || (hi <? b1))%Z then RuneError :: decodeRunes p1
                else if sz <=? 2 then
                  Z.lor (Z.shiftl (Z.land b0 31) 6) (Z.land b1 63)
                  :: decodeRunes p2
                else
                  match p2 with
                  | [] => RuneError :: decodeRunes p1
                  | b2 :: p3 =>
                      if negb (contByte b2) then RuneError :: decodeRunes p1
                      else if sz <=? 3 then
                        Z.lor (Z.lor (Z.shiftl (Z.land b0 15) 12)
                                     (Z.shiftl (Z.land b1 63) 6))
                              (Z.land b2 63)
                        :: decodeRunes p3
                      else
                        match p3 with
                        | [] => RuneError :: decodeRunes p1
                        | b3 :: p4 =>
                            if negb (contByte b3)
                            then RuneError :: decodeRunes p1
                            else
                              Z.lor (Z.lor (Z.lor (Z.shiftl (Z.land b0 7) 18)
                                                  (Z.shiftl (Z.land b1 63) 12))
                                           (Z.shiftl (Z.land b2 63) 6))
                                    (Z.land b3 63)
                              :: decodeRunes p4
                        end
                  end
            end
        end
  end.

(** [[]rune(s)], and the runes a [range] over [s] yields. *)
Definition runesOf (s : string) : list rune := decodeRunes (bytesOf s).

(** The thirty-two names of [asciiSpecialLookup]. *)
Definition asciiSpecialLookup : list string :=
  [ "<NUL>"; "<SOH>"; "<STX>"; "<ETX>"; "<EOT>"; "<ENQ>"; "<ACK>";
    "\a"; "\b"; "\t"; "\n"; "\v"; "\f"; "\r";
    "<SO>"; "<SI>"; "<DLE>"; "<DC1>"; "<DC2>"; "<DC3>"; "<DC4>";
    "<NAK>"; "<SYN>"; "<ETB>"; "<CAN>"; "<EM>"; "<SUB>"; "<ESC>";
    "<FS>"; "<GS>"; "<RS>"; "<US>" ].

(** One uppercase hexadecimal digit. *)
Definition hexDigit (d : Z) : ascii :=
  (if d <? 10 then Rune.byte (48 + d) else Rune.byte (55 + d))%Z.

(** The hexadecimal digits of [u] in front of [acc], for a [uint64] (at
    most sixteen digits). *)
Fixpoint hexDigits (fuel : nat) (u : Z) (acc : string) : string :=
  match fuel with
  | 0 => acc
  | S fuel' =>
      let acc' := String (hexDigit (u mod 16)%Z) acc in
      if (u <? 16)%Z then acc' else hexDigits fuel' (u / 16)%Z acc'
  end.

(** [n] zeros in front of [s]. *)
Fixpoint padZeros (n : nat) (s : string) : string :=
  match n with
  | 0 => s
  | S n' => padZeros n' (String "0"%char s)
  end.

(** [fmt.Sprintf("%U", r)]: [U+] and the code point as [uint64] in
    uppercase hexadecimal, four digits at least. *)
Definition formatU (r : rune) : string :=
  let digits := hexDigits 16 (r mod 18446744073709551616)%Z "" in
  ("U+" ++ padZeros (4 - String.length digits) digits)%string.

(** [fmt.Sprintf("%d", n)] for an [int]: decimal digits, with [-] in
    front of a negative number. *)
Definition formatD (n : Z) : string :=
  DecimalString.NilEmpty.string_of_int (Z.to_int n).

(** The body of the loop of [visibleString] for the rune [r]: what is
    appended to [v].  The index expression panics outside the table. *)
Definition visibleRune (r : rune) : result string :=
  if ((32 <=? r) && (r <=? 126))%Z then Ok (Rune.encode r)
  else if (r =? 127)%Z then Ok "<DEL>"
  else if ((0 <=? r) && (r <=? 31))%Z then
    match nth_error asciiSpecialLookup (Z.to_nat r) with
    | Some name => Ok name
    | None => Panic "index out of range"
    end
  else Ok ("<" ++ formatU r ++ ">")%string.

(** The loop of [visibleString] over the runes of [s], from [v]. *)
Fixpoint visibleLoop (rs : list rune) (v : string) : result string :=
  match rs with
  | [] => Ok v
  | r :: rs' =>
      match visibleRune r with
      | Ok w => visibleLoop rs' (v ++ w)%string
      | Panic msg => Panic msg
      end
  end.

Definition visibleString (s : string) : result string :=
  visibleLoop (runesOf s) "".

(** The values of the four constants of type [TokenType], which is [int]
    in Go: [iota] counts them from 0. *)
Definition TokenTypeValue (ty : TokenType) : Z :=
  match ty with
  | TypeFormStart => 0
  | TypeAtom => 1
  | TypeText => 2
  | TypeFormEnd => 3
  end.

(** [fmt.Sprintf(name + "{%d: `%s`}", p, visibleString(text))]; the
    arguments are evaluated first, so a panic of [visibleString] is one of
    the call. *)
Definition sprintfToken (name : string) (p : Z) (text : string)
  : result string :=
  match visibleString text with
  | Panic msg => Panic msg
  | Ok v => Ok (name ++ "{" ++ formatD p ++ ": `" ++ v ++ "`}")%string
  end.

(** The method [String] of [Token] ([String] names the constructor of
    strings here, so the method is [TokenString]), on the token
    [Token{Type: ty, Text: text, Pos: p}].  The fields [Type] and [Pos]
    are of type [int] in Go, so they are integers here: [ty] can be a
    value that is none of the four constants, which the [switch] leaves
    to the last [return], and [p] can be negative. *)
Definition TokenString (ty : Z) (text : string) (p : Z) : result string :=
  if (ty =? TokenTypeValue TypeFormStart)%Z then sprintfToken "FormStart" p text
  else if (ty =? TokenTypeValue TypeAtom)%Z then sprintfToken "Atom" p text
  else if (ty =? TokenTypeValue TypeText)%Z then sprintfToken "Text" p text
  else if (ty =? TokenTypeValue TypeFormEnd)%Z then sprintfToken "FormEnd" p text
  else Ok "Invalid{~}".

(** [tok.String()] for a token [tok] of the tokenizer. *)
Definition TokenStringOf (tok : Token) : result string :=
  TokenString (TokenTypeValue (Typ tok)) (Text tok) (Z.of_nat (Pos tok)).

(** ** Notions used to state and prove the properties *)

(** [skipLoop] and [atomLoop] are one loop over two character classes:
    the loop that moves an index forward while the rune is in [P]. *)
Fixpoint advanceWhile (P : rune -> bool) (fuel : nat) (s : list rune)
  (p : nat) : nat :=
  match fuel with
  | 0 => p
  | S fuel' =>
      if (p <? len s) && P (index s p)
      then advanceWhile P fuel' s (p + 1)
      else p
  end.

(** The number of transitions that can still follow a call of [f] with the
    cursor at [p]: three for each rune that is left, corrected by the
    method and by the rune under the cursor.  It goes down on every
    transition after which the loop of [Tokenize] continues
    ([call_transition]), and it is at most [3 * (len s - p) + 1]. *)
Definition rank (f : tokFunc) (s : list rune) (p : nat) : nat :=
  let r := len s - p in
  let c := index s p in
  match f with
  | FnTextOrForm => 3 * r + 1
  | FnText =>
      if (c =? Rune.rparen)%Z then 3 * r
      else if (c =? Rune.lparen)%Z then 3 * r + 1
      else 3 * r - 2
  | FnForm => 3 * r - 1
  | FnNilOrAtom => 3 * r + 1
  | FnNil => 3 * r - 2
  | FnAtom => if (c =? Rune.lparen)%Z then 3 * r + 1 else 3 * r
  | FnNilOrTextOrForm => if (c =? Rune.lparen)%Z then 3 * r else 3 * r - 1
  | FnEOF => 1
  end.

(** The effect of one call [t.state()] made by the loop of [Tokenize]
    (so with the cursor inside the input): the input is untouched, the
    cursor does not move back and stays within the input, the tokens that
    are appended all carry one position [p] between the old and the new
    cursor and inside the input, and the rank goes down if the loop is to
    continue. *)
Definition transition (f : tokFunc) (t : Tokenizer)
           (f' : option tokFunc) (t' : Tokenizer) : Prop :=
  bs t' = bs t
  /\ pos t <= pos t' <= len (bs t)
  /\ (exists p new,
         tokens t' = tokens t ++ new
         /\ pos t <= p <= pos t' /\ p < len (bs t)
         /\ Forall (fun k => Pos k = p) new)
  /\ (forall g, f' = Some g -> pos t' < len (bs t) ->
      rank g (bs t) (pos t') < rank f (bs t) (pos t)).

(** The run ended, by a return or by a panic, within its fuel. *)
Definition halted (o : outcome) : bool :=
  match o with
  | OutOfFuel => false
  | _ => true
  end.

(** Adjacent tokens are in non-decreasing order of position. *)
Definition nondecreasing (toks : list Token) : Prop :=
  forall i a b,
    nth_error toks i = Some a ->
    nth_error toks (S i) = Some b ->
    Pos a <= Pos b.

(** The invariant of the loop on the token buffer. *)
Definition tokens_ok (t : Tokenizer) : Prop :=
  Forall (fun k => Pos k <= pos t /\ Pos k < len (bs t)) (tokens t)
  /\ nondecreasing (tokens t).

(** No rune of [txt] is a parenthesis or a backslash. *)
Definition plainText (txt : list rune) : bool :=
  forallb (fun r => negb (r =? Rune.rparen)%Z
                    && negb (r =? Rune.lparen)%Z
                    && negb (r =? Rune.backslash)%Z) txt.

(** What follows a backslash makes it a valid escape: it starts with one of
    [( ) \ +]. *)
Definition escapable (rest : list rune) : bool :=
  match rest with
  | [] => false
  | c :: _ =>
      (c =? Rune.lparen)%Z || (c =? Rune.rparen)%Z
      || (c =? Rune.backslash)%Z || (c =? Rune.plus)%Z
  end.

(** The three tokens [tokEOF] appends when the cursor is at [p]. *)
Definition eofTriple (p : nat) : list Token :=
  [ {| Typ := TypeFormStart; Text := "("; Pos := p |};
    {| Typ := TypeAtom; Text := "eof"; Pos := p |};
    {| Typ := TypeFormEnd; Text := ")"; Pos := p |} ].

(** Equality of tokens, as a test. *)
Definition TokenType_eqb (a b : TokenType) : bool :=
  match a, b with
  | TypeFormStart, TypeFormStart
  | TypeAtom, TypeAtom
  | TypeText, TypeText
  | TypeFormEnd, TypeFormEnd => true
  | _, _ => false
  end.

Definition Token_eqb (a b : Token) : bool :=
  TokenType_eqb (Typ a) (Typ b)
  && String.eqb (Text a) (Text b)
  && Nat.eqb (Pos a) (Pos b).

(** The last three tokens of [toks] are the triple [eofTriple p]. *)
Definition endsWithTriple (p : nat) (toks : list Token) : bool :=
  match rev toks, rev (eofTriple p) with
  | c :: b :: a :: _, c' :: b' :: a' :: _ =>
      Token_eqb a a' && Token_eqb b b' && Token_eqb c c'
  | _, _ => false
  end.

(** [Tokenize] returned tokens that end with the triple at position [p]. *)
Definition endsWithEOF (p : nat) (o : outcome) : bool :=
  match o with
  | Returned toks _ => endsWithTriple p toks
  | _ => false
  end.

(** [toks] without its trailing triple, if it has one. *)
Definition ignoringEOF (p : nat) (toks : list Token) : list Token :=
  if endsWithTriple p toks then firstn (len toks - 3) toks else toks.


(** What the loop of [Tokenize] knows about the rune under the cursor when
    it is about to call [f]: the methods that emit a parenthesis are only
    entered on that parenthesis, [tokNilOrAtom] just behind a [(],
    [tokAtom] and [tokText] never on [(] or on whitespace, and [tokEOF]
    only with the cursor at the end; the state is never [nil]. *)
Definition state_ok (f : option tokFunc) (t : Tokenizer) : Prop :=
  let c := index (bs t) (pos t) in
  match f with
  | Some FnForm => (c =? Rune.lparen)%Z = true
  | Some FnNil => (c =? Rune.rparen)%Z = true
  | Some FnNilOrAtom =>
      1 <= pos t /\ (index (bs t) (pos t - 1) =? Rune.lparen)%Z = true
  | Some FnAtom =>
      (c =? Rune.lparen)%Z = false /\ (c =? Rune.rparen)%Z = false
      /\ isWhitespace c = false
  | Some FnText => (c =? Rune.lparen)%Z = false /\ isWhitespace c = false
  | Some FnEOF => len (bs t) <= pos t
  | Some FnTextOrForm | Some FnNilOrTextOrForm => True
  | None => False
  end.

(** The scan of [tokText] written on the list of runes it reads: [Some q']
    when [txt] is made of runes that are not an unquoted parenthesis, of
    escapes [\(], [\)], [\\] and of markers [\+], and is scanned to its end
    with the quoted flag going from [quoted] to [q']; [None] when the scan
    would stop or panic inside [txt]. *)
Fixpoint scanText (quoted : bool) (txt : list rune) : option bool :=
  match txt with
  | [] => Some quoted
  | c :: rest =>
      if (c =? Rune.backslash)%Z then
        match rest with
        | [] => None
        | d :: rest' =>
            if (d =? Rune.lparen)%Z || (d =? Rune.rparen)%Z
               || (d =? Rune.backslash)%Z
            then scanText quoted rest'
            else if (d =? Rune.plus)%Z then scanText (negb quoted) rest'
            else None
        end
      else if (negb (c =? Rune.rparen)%Z && negb (c =? Rune.lparen)%Z)
              || quoted
      then scanText quoted rest
      else None
  end.

(** What may follow scanned text for the scan to end there: the end of the
    input, or a parenthesis while the quoted flag is off. *)
Definition scanEnds (quoted : bool) (rest : list rune) : bool :=
  match rest with
  | [] => true
  | c :: _ =>
      negb quoted && ((c =? Rune.rparen)%Z || (c =? Rune.lparen)%Z)
  end.

(** A token of the input [s]: a parenthesis token sits on that parenthesis
    and has it as text; the text of an atom or text token is the input from
    the token's position to some end [e], where an atom covers runes of the
    atom class only and ends where the class ends, and a text token that
    is not empty does not start with whitespace, is text for [scanText]
    and ends at the end of the input or on an unquoted parenthesis. *)
Definition token_wf (s : list rune) (k : Token) : Prop :=
  match Typ k with
  | TypeFormStart =>
      Text k = "(" /\ Pos k < len s /\ index s (Pos k) = Rune.lparen
  | TypeFormEnd =>
      Text k = ")" /\ Pos k < len s /\ index s (Pos k) = Rune.rparen
  | TypeAtom =>
      exists e,
        Pos k <= e <= len s
        /\ Text k = Rune.to_string (slice s (Pos k) e)
        /\ (forall i, Pos k <= i < e -> isAlphaNum (index s i) = true)
        /\ (e <? len s) && isAlphaNum (index s e) = false
  | TypeText =>
      exists e q',
        Pos k <= e <= len s
        /\ Text k = Rune.to_string (slice s (Pos k) e)
        /\ (Pos k < e -> isWhitespace (index s (Pos k)) = false)
        /\ scanText false (slice s (Pos k) e) = Some q'
        /\ scanEnds q' (skipn e s) = true
  end.

(** The two situations in which a method panics with [msg]: a backslash
    that starts no valid escape, and a [(] that is the first rune after a
    [(] and whitespace. *)
Definition panic_cause (s : list rune) (msg : string) : Prop :=
  (msg = "invalid escape character"
   /\ exists i,
       i < len s
       /\ index s i = Rune.backslash
       /\ escapable (skipn (i + 1) s) = false)
  \/ (msg = "invalid: cannot start form / expected atom or nil"
      /\ exists p q,
          p < q < len s
          /\ index s p = Rune.lparen
          /\ index s q = Rune.lparen
          /\ forall i, p < i < q -> isWhitespace (index s i) = true).

(** A token moved [n] runes to the right. *)
Definition shiftToken (n : nat) (k : Token) : Token :=
  {| Typ := Typ k; Text := Text k; Pos := n + Pos k |}.

(** The result of a run with every position moved [n] runes to the
    right. *)
Definition shiftOutcome (n : nat) (o : outcome) : outcome :=
  match o with
  | Returned toks err => Returned (map (shiftToken n) toks) err
  | Panicked msg => Panicked msg
  | OutOfFuel => OutOfFuel
  end.

(** The tokenizer [t] seen behind the runes [pre], with the tokens [base]
    emitted before. *)
Definition shiftTokenizer (pre : list rune) (base : list Token)
  (t : Tokenizer) : Tokenizer :=
  {| bs := pre ++ bs t;
     pos := len pre + pos t;
     tokens := base ++ map (shiftToken (len pre)) (tokens t);
     state := state t |}.

(** Every character of [s] is printable ASCII (32 to 126). *)
Fixpoint printable (s : string) : bool :=
  match s with
  | EmptyString => true
  | String a s' =>
      (32 <=? nat_of_ascii a) && (nat_of_ascii a <=? 126) && printable s'
  end.

(** What [string(r)] keeps of the rune [r]: a surrogate or a value outside
    the Unicode range is replaced by [RuneError]. *)
Definition sanitize (r : rune) : rune :=
  (if (r <? 0) || (1114111 <? r) || ((55296 <=? r) && (r <=? 57343))
   then RuneError else r)%Z.

(** The tokens [toks] account for the input [s] up to the index [p]: read
    from the left, [s] is whitespace that was skipped and, in the order of
    [toks], the runes each token has as its text, starting at the token's
    position. *)
Inductive cover (s : list rune) : list Token -> nat -> Prop :=
| cover_start : cover s [] 0
| cover_space :
    forall toks p,
      cover s toks p ->
      p < len s -> isWhitespace (index s p) = true ->
      cover s toks (p + 1)
| cover_token :
    forall toks p e ty,
      cover s toks p ->
      p <= e <= len s ->
      cover s (toks ++ [ {| Typ := ty;
                            Text := Rune.to_string (slice s p e);
                            Pos := p |} ]) e.

(** The invariant: the state fits the rune under the cursor, and the
    tokens emitted so far account for the input up to the cursor. *)
Definition covered (t : Tokenizer) : Prop :=
  state_ok (state t) t
  /\ pos t <= len (bs t)
  /\ cover (bs t) (tokens t) (pos t).

(** *** The order of the tokens *)

(** The kinds a token sequence can start with. *)
Definition mayStart (b : TokenType) : bool :=
  match b with
  | TypeText | TypeFormStart => true
  | _ => false
  end.

(** The kinds that can directly follow a token of kind [a]. *)
Definition mayFollow (a b : TokenType) : bool :=
  match a, b with
  | TypeFormStart, (TypeAtom | TypeFormEnd) => true
  | TypeAtom, (TypeText | TypeFormStart | TypeFormEnd) => true
  | TypeText, (TypeFormStart | TypeFormEnd) => true
  | TypeFormEnd, (TypeText | TypeFormStart | TypeFormEnd) => true
  | _, _ => false
  end.

Definition mayCome (prev : option TokenType) (b : TokenType) : bool :=
  match prev with
  | None => mayStart b
  | Some a => mayFollow a b
  end.

(** Every token of [toks] may come after the one before it, the first
    after [prev]. *)
Fixpoint sequenceOK (prev : option TokenType) (toks : list Token) : bool :=
  match toks with
  | [] => true
  | k :: rest => mayCome prev (Typ k) && sequenceOK (Some (Typ k)) rest
  end.

(** The kind of the last token of [toks], [prev] if there is none. *)
Definition lastType (prev : option TokenType) (toks : list Token)
  : option TokenType :=
  fold_left (fun _ k => Some (Typ k)) toks prev.

(** A [Text] token with empty text. *)
Definition emptyText (k : Token) : bool :=
  match Typ k with
  | TypeText => String.eqb (Text k) ""
  | _ => false
  end.

(** No token but the first is an empty [Text] token. *)
Definition textsOK (toks : list Token) : bool :=
  forallb (fun k => negb (emptyText k)) (tl toks).

(** What the loop knows about the tokens emitted so far when it is about
    to call the state: they are in an order that is possible, the token
    the state is going to emit may come next, and a [Text] token that is
    not the first will not be empty. *)
Definition ordered (t : Tokenizer) : Prop :=
  let lt := lastType None (tokens t) in
  let c := index (bs t) (pos t) in
  state_ok (state t) t
  /\ sequenceOK None (tokens t) = true
  /\ textsOK (tokens t) = true
  /\ match state t with
     | Some FnTextOrForm => lt = None
     | Some FnText =>
         mayCome lt TypeText = true
         /\ (lt = None \/ (c =? Rune.rparen)%Z = false)
     | Some FnForm => mayCome lt TypeFormStart = true
     | Some FnNilOrAtom => lt = Some TypeFormStart
     | Some FnNil => mayCome lt TypeFormEnd = true
     | Some FnAtom => lt = Some TypeFormStart
     | Some FnNilOrTextOrForm =>
         (lt = Some TypeText \/ lt = Some TypeAtom \/ lt = Some TypeFormEnd)
         /\ (lt = Some TypeText -> pos t < len (bs t) ->
             (c =? Rune.rparen)%Z || (c =? Rune.lparen)%Z = true)
     | Some FnEOF => True
     | None => False
     end.

(** [proj] in a hypothesis. *)
Ltac proj_in H :=
  cbn [bs pos tokens state set_pos set_state append NewTokenizer] in H.

(** Arithmetic with division and remainder. *)
Ltac zdm := Z.div_mod_to_equations; lia.

(** Decides a goal made of [Z] comparisons as booleans. *)
Ltac blia :=
  rewrite ?orb_false_iff, ?andb_false_iff, ?orb_true_iff, ?andb_true_iff,
    ?negb_true_iff, ?negb_false_iff,
    ?Z.ltb_lt, ?Z.ltb_ge, ?Z.leb_le, ?Z.leb_gt, ?Z.eqb_eq, ?Z.eqb_neq;
  lia.

(** Splits every [if] of the goal. *)
Ltac split_ifs :=
  repeat match goal with
         | |- context [if ?c then _ else _] => destruct c eqn:?
         end.

(** Reduces the projections of a tokenizer that was built by a method. *)
Ltac proj := cbn [bs pos tokens state set_pos set_state append NewTokenizer].

(** ** The inner loops: bounds, exit condition and fuel *)

Section AdvanceWhile.
(** The properties of [skipLoop] and [atomLoop] are proved once, for
    any class [P]. *)
Variable P : rune -> bool.

Lemma advanceWhile_ge : forall fuel s p, p <= advanceWhile P fuel s p.
Proof.
  induction fuel as [|fuel IH]; intros s p; simpl; [lia|].
  destruct ((p <? len s) && P (index s p)); [|lia].
  specialize (IH s (p + 1)); lia.
Qed.

Lemma advanceWhile_le :
  forall fuel s p, p <= len s -> advanceWhile P fuel s p <= len s.
Proof.
  induction fuel as [|fuel IH]; intros s p Hp; simpl; [lia|].
  destruct (p <? len s) eqn:Hlt; simpl; [|lia].
  apply Nat.ltb_lt in Hlt.
  destruct (P (index s p)); [|lia].
  apply IH; lia.
Qed.

(** With the distance to the end as fuel the loop stops because its
    condition is false, not because the fuel is used up. *)
Lemma advanceWhile_exit :
  forall fuel s p,
    len s - p <= fuel ->
    (advanceWhile P fuel s p <? len s)
    && P (index s (advanceWhile P fuel s p)) = false.
Proof.
  induction fuel as [|fuel IH]; intros s p Hf; simpl.
  - replace (p <? len s) with false; [reflexivity|].
    symmetry; apply Nat.ltb_ge; lia.
  - destruct ((p <? len s) && P (index s p)) eqn:Hc; [|exact Hc].
    apply IH; lia.
Qed.

Lemma advanceWhile_fuel :
  forall fuel s p,
    len s - p <= fuel ->
    advanceWhile P fuel s p = advanceWhile P (len s - p) s p.
Proof.
  induction fuel as [|fuel IH]; intros s p Hf.
  - replace (len s - p) with 0 by lia; reflexivity.
  - simpl. destruct (p <? len s) eqn:Hlt; simpl.
    + apply Nat.ltb_lt in Hlt.
      replace (len s - p) with (S (len s - (p + 1))) by lia.
      simpl. apply Nat.ltb_lt in Hlt; rewrite Hlt; simpl.
      destruct (P (index s p)); [|reflexivity].
      apply IH; lia.
    + apply Nat.ltb_ge in Hlt.
      replace (len s - p) with 0 by lia; reflexivity.
Qed.

Lemma advanceWhile_stay :
  forall fuel s p, P (index s p) = false -> advanceWhile P fuel s p = p.
Proof.
  intros [|fuel] s p H; simpl; [reflexivity|].
  rewrite H, andb_false_r; reflexivity.
Qed.

Lemma advanceWhile_move :
  forall fuel s p,
    p < len s -> P (index s p) = true -> p < advanceWhile P (S fuel) s p.
Proof.
  intros fuel s p Hp H; simpl.
  apply Nat.ltb_lt in Hp; rewrite Hp, H; simpl.
  pose proof (advanceWhile_ge fuel s (p + 1)); lia.
Qed.

(** Every rune the loop passes over is in the class. *)
Lemma advanceWhile_all :
  forall fuel s p i,
    p <= i < advanceWhile P fuel s p -> P (index s i) = true.
Proof.
  induction fuel as [|fuel IH]; intros s p i Hi; simpl in Hi; [lia|].
  destruct ((p <? len s) && P (index s p)) eqn:Hc; [|lia].
  apply andb_true_iff in Hc as [_ Hc].
  destruct (Nat.eq_dec i p) as [->|Hne]; [exact Hc|].
  apply (IH s (p + 1)); lia.
Qed.
(** The loop does not pass a rune that is outside the class. *)
Lemma advanceWhile_stop :
  forall fuel s p i,
    p <= i -> P (index s i) = false -> advanceWhile P fuel s p <= i.
Proof.
  induction fuel as [|fuel IH]; intros s p i Hi Hf; simpl; [lia|].
  destruct ((p <? len s) && P (index s p)) eqn:Hc; [|lia].
  apply andb_true_iff in Hc as [_ Hc].
  apply IH; [|exact Hf].
  destruct (Nat.eq_dec p i) as [->|Hne]; [congruence|lia].
Qed.

(** Over a run of runes of the class that ends at [q], the loop stops
    exactly at [q]. *)
Lemma advanceWhile_run :
  forall fuel s p q,
    p <= q <= len s ->
    q - p <= fuel ->
    (forall i, p <= i < q -> P (index s i) = true) ->
    (q < len s -> P (index s q) = false) ->
    advanceWhile P fuel s p = q.
Proof.
  induction fuel as [|fuel IH]; intros s p q Hpq Hf Hrun Hend; simpl.
  - lia.
  - destruct (Nat.eq_dec p q) as [->|Hne].
    + destruct (q <? len s) eqn:Hlt; simpl; [|reflexivity].
      apply Nat.ltb_lt in Hlt. now rewrite (Hend Hlt).
    + assert (Hlt : p < len s) by lia.
      apply Nat.ltb_lt in Hlt. rewrite Hlt, (Hrun p) by lia. simpl.
      apply IH; try lia; auto.
      intros i Hi; apply Hrun; lia.
Qed.
End AdvanceWhile.

Lemma skipLoop_advanceWhile :
  forall fuel s p, skipLoop fuel s p = advanceWhile isWhitespace fuel s p.
Proof.
  induction fuel as [|fuel IH]; intros s p; simpl; [reflexivity|].
  rewrite IH; reflexivity.
Qed.

Lemma atomLoop_advanceWhile :
  forall fuel s p, atomLoop fuel s p = advanceWhile isAlphaNum fuel s p.
Proof.
  induction fuel as [|fuel IH]; intros s p; simpl; [reflexivity|].
  rewrite IH; reflexivity.
Qed.

Lemma skipLoop_fuel :
  forall fuel s p,
    len s - p <= fuel -> skipLoop fuel s p = skipLoop (len s - p) s p.
Proof.
  intros; rewrite !skipLoop_advanceWhile; now apply advanceWhile_fuel.
Qed.

Lemma atomLoop_fuel :
  forall fuel s p,
    len s - p <= fuel -> atomLoop fuel s p = atomLoop (len s - p) s p.
Proof.
  intros; rewrite !atomLoop_advanceWhile; now apply advanceWhile_fuel.
Qed.

(** *** The text loop *)

Lemma textLoop_ge :
  forall fuel s e q e', textLoop fuel s e q = Ok e' -> e <= e'.
Proof.
  induction fuel as [|fuel IH]; intros s e q e' H; simpl in H.
  - injection H as <-; lia.
  - repeat match type of H with
           | (if ?c then _ else _) = _ => destruct c
           end;
      try discriminate;
      try (injection H as <-; lia);
      apply IH in H; lia.
Qed.

Lemma textLoop_le :
  forall fuel s e q e',
    e <= len s -> textLoop fuel s e q = Ok e' -> e' <= len s.
Proof.
  induction fuel as [|fuel IH]; intros s e q e' He H; simpl in H.
  - injection H as <-; lia.
  - destruct (e <? len s) eqn:Hlt; simpl in H;
      [apply Nat.ltb_lt in Hlt | injection H as <-; lia].
    destruct (_ || q); [|injection H as <-; lia].
    destruct (index s e =? Rune.backslash)%Z.
    + destruct (e + 1 <? len s) eqn:Hlt1; simpl in H; [|discriminate].
      apply Nat.ltb_lt in Hlt1.
      repeat match type of H with
             | (if ?c then _ else _) = _ => destruct c
             end;
        try discriminate; apply IH in H; lia.
    + apply IH in H; lia.
Qed.

(** On a rune that is not a parenthesis the loop body runs at least once. *)
Lemma textLoop_move :
  forall fuel s e q e',
    e < len s ->
    (index s e =? Rune.rparen)%Z = false ->
    (index s e =? Rune.lparen)%Z = false ->
    textLoop (S fuel) s e q = Ok e' -> e < e'.
Proof.
  intros fuel s e q e' He Hr Hl H; simpl in H.
  apply Nat.ltb_lt in He; rewrite He, Hr, Hl in H; simpl in H.
  repeat match type of H with
         | (if ?c then _ else _) = _ => destruct c
         end;
    try discriminate; apply textLoop_ge in H; lia.
Qed.

(** On an unquoted parenthesis the loop body does not run. *)
Lemma textLoop_stay :
  forall fuel s e,
    (index s e =? Rune.rparen)%Z || (index s e =? Rune.lparen)%Z = true ->
    textLoop fuel s e false = Ok e.
Proof.
  intros [|fuel] s e H; simpl; [reflexivity|].
  apply orb_true_iff in H as [H|H]; rewrite H; simpl;
    rewrite ?andb_false_r; reflexivity.
Qed.

(** Any fuel that covers the distance to the end gives the same result:
    the loop stops on its condition or on the panic. *)
Lemma textLoop_fuel_irrel :
  forall n m s e q,
    len s - e <= n -> len s - e <= m ->
    textLoop n s e q = textLoop m s e q.
Proof.
  induction n as [|n IH]; intros m s e q Hn Hm.
  - destruct m as [|m]; simpl; [reflexivity|].
    replace (e <? len s) with false; [reflexivity|].
    symmetry; apply Nat.ltb_ge; lia.
  - destruct m as [|m]; simpl.
    + replace (e <? len s) with false; [reflexivity|].
      symmetry; apply Nat.ltb_ge; lia.
    + destruct (e <? len s) eqn:Hlt; simpl; [|reflexivity].
      apply Nat.ltb_lt in Hlt.
      rewrite (IH m s (e + 1 + 1) q) by lia.
      rewrite (IH m s (e + 1 + 1) (negb q)) by lia.
      rewrite (IH m s (e + 1) q) by lia.
      reflexivity.
Qed.

Lemma textLoop_fuel :
  forall fuel s e q,
    len s - e <= fuel ->
    textLoop fuel s e q = textLoop (len s - e) s e q.
Proof.
  intros; apply textLoop_fuel_irrel; lia.
Qed.

(** ** What one transition does *)

Lemma skipWhitespace_spec :
  forall t,
    let t' := skipWhitespace t in
    bs t' = bs t /\ tokens t' = tokens t /\ state t' = state t
    /\ pos t <= pos t'
    /\ (pos t <= len (bs t) -> pos t' <= len (bs t))
    /\ (pos t' < len (bs t) -> isWhitespace (index (bs t) (pos t')) = false)
    /\ (isWhitespace (index (bs t) (pos t)) = false -> pos t' = pos t)
    /\ (pos t < len (bs t) -> isWhitespace (index (bs t) (pos t)) = true ->
        pos t < pos t').
Proof.
  intros t; unfold skipWhitespace; simpl.
  rewrite skipLoop_advanceWhile.
  repeat split.
  - apply advanceWhile_ge.
  - apply advanceWhile_le.
  - intros Hlt.
    pose proof (advanceWhile_exit isWhitespace (len (bs t) - pos t) (bs t) (pos t)
                  (Nat.le_refl _)) as Hex.
    apply Nat.ltb_lt in Hlt; rewrite Hlt in Hex; exact Hex.
  - apply advanceWhile_stay.
  - intros Hlt Hws.
    replace (len (bs t) - pos t) with (S (len (bs t) - pos t - 1)) by lia.
    now apply advanceWhile_move.
Qed.

Lemma lparen_not_rparen :
  forall r, (r =? Rune.lparen)%Z = true -> (r =? Rune.rparen)%Z = false.
Proof. intros r H; apply Z.eqb_eq in H; subst; reflexivity. Qed.

Lemma rank_pos :
  forall f s p, p < len s -> 1 <= rank f s p.
Proof.
  intros f s p Hp; unfold rank; destruct f;
    repeat match goal with |- context [if ?c then _ else _] => destruct c end;
    lia.
Qed.

Lemma rank_le :
  forall f s p, rank f s p <= 3 * (len s - p) + 1.
Proof.
  intros f s p; unfold rank; destruct f;
    repeat match goal with |- context [if ?c then _ else _] => destruct c end;
    lia.
Qed.

(** The three methods that only look at the rune under the cursor. *)
Lemma dispatch_transition :
  forall f t f' t',
    pos t < len (bs t) ->
    f = FnTextOrForm \/ f = FnNilOrAtom \/ f = FnNilOrTextOrForm ->
    call f t = Ok (f', t') ->
    transition f t f' t'.
Proof.
  intros f t f' t' Hlt Hf H.
  destruct (skipWhitespace_spec t)
    as (Hbs & Htok & _ & Hge & Hle & Hnws & Hstay & Hmove).
  remember (skipWhitespace t) as t1 eqn:Ht1.
  assert (Hcall :
            t' = t1 /\
            (forall g, f' = Some g -> pos t1 < len (bs t) ->
                       rank g (bs t) (pos t1) < rank f (bs t) (pos t))).
  { destruct (Nat.eq_dec (pos t1) (pos t)) as [Heq|Hne].
    - destruct Hf as [-> | [-> | ->]]; simpl in H;
        unfold tokTextOrForm, tokNilOrAtom, tokNilOrTextOrForm in H;
        rewrite <- Ht1, Hbs in H; cbv zeta in H;
        rewrite Heq in *;
        destruct (len (bs t) <=? pos t) eqn:Hend;
        destruct (index (bs t) (pos t) =? Rune.lparen)%Z eqn:El;
        destruct (index (bs t) (pos t) =? Rune.rparen)%Z eqn:Er;
        try discriminate;
        injection H as <- <-; (split; [reflexivity|]);
        intros g Hg Hlt'; injection Hg as <-;
        unfold rank; rewrite ?El, ?Er; try lia;
        apply lparen_not_rparen in El; congruence.
    - assert (Hgt : pos t < pos t1) by lia.
      destruct Hf as [-> | [-> | ->]]; simpl in H;
        unfold tokTextOrForm, tokNilOrAtom, tokNilOrTextOrForm in H;
        rewrite <- Ht1, Hbs in H; cbv zeta in H;
        destruct (len (bs t) <=? pos t1) eqn:Hend;
        destruct (index (bs t) (pos t1) =? Rune.lparen)%Z eqn:El;
        destruct (index (bs t) (pos t1) =? Rune.rparen)%Z eqn:Er;
        try discriminate;
        injection H as <- <-; (split; [reflexivity|]);
        intros g Hg Hlt'; injection Hg as <-;
        unfold rank; rewrite ?El, ?Er; split_ifs; lia. }
  destruct Hcall as [-> Hrank].
  unfold transition.
  split; [exact Hbs|].
  split; [split; [exact Hge | apply Hle; lia]|].
  split.
  - exists (pos t), []. rewrite Htok, app_nil_r.
    repeat split; try lia. constructor.
  - exact Hrank.
Qed.

(** The two methods that emit a parenthesis and step over it. *)
Lemma paren_transition :
  forall f t f' t',
    pos t < len (bs t) ->
    f = FnForm \/ f = FnNil ->
    call f t = Ok (f', t') ->
    transition f t f' t'.
Proof.
  intros f t f' t' Hlt Hf H.
  destruct Hf as [-> | ->]; simpl in H; unfold tokForm, tokNil in H;
    injection H as <- <-; unfold transition; simpl;
    (split; [reflexivity|]); (split; [lia|]); split.
  - eexists (pos t), [_]; repeat split; try lia. repeat constructor.
  - intros g Hg Hlt'; injection Hg as <-; unfold rank; lia.
  - eexists (pos t), [_]; repeat split; try lia. repeat constructor.
  - intros g Hg Hlt'; injection Hg as <-; unfold rank; split_ifs; lia.
Qed.

Lemma tokEOF_transition :
  forall t f' t',
    pos t < len (bs t) ->
    call FnEOF t = Ok (f', t') ->
    transition FnEOF t f' t'.
Proof.
  intros t f' t' Hlt H; simpl in H; unfold tokEOF in H.
  injection H as <- <-; unfold transition; simpl.
  split; [reflexivity|]. split; [lia|]. split.
  - eexists (pos t), [_; _; _]; repeat split; try lia. repeat constructor.
  - intros g Hg; discriminate.
Qed.

Lemma tokAtom_transition :
  forall t f' t',
    pos t < len (bs t) ->
    call FnAtom t = Ok (f', t') ->
    transition FnAtom t f' t'.
Proof.
  intros t f' t' Hlt H; simpl in H; unfold tokAtom in H; cbv zeta in H.
  injection H as <- <-; unfold transition; simpl.
  rewrite atomLoop_advanceWhile.
  set (e := advanceWhile isAlphaNum (len (bs t) - pos t) (bs t) (pos t)).
  assert (Hge : pos t <= e) by apply advanceWhile_ge.
  assert (Hle : e <= len (bs t)) by (apply advanceWhile_le; lia).
  split; [reflexivity|]. split; [lia|]. split.
  - eexists (pos t), [_]; repeat split; try lia. repeat constructor.
  - intros g Hg Hlt'; injection Hg as <-.
    destruct (isAlphaNum (index (bs t) (pos t))) eqn:Han.
    + assert (Hmv : pos t < e).
      { unfold e.
        replace (len (bs t) - pos t) with (S (len (bs t) - pos t - 1)) by lia.
        now apply advanceWhile_move. }
      unfold rank; split_ifs; lia.
    + assert (Hst : e = pos t) by (now apply advanceWhile_stay).
      rewrite Hst. unfold rank.
      destruct (index (bs t) (pos t) =? Rune.lparen)%Z; lia.
Qed.

Lemma tokText_transition :
  forall t f' t',
    pos t < len (bs t) ->
    call FnText t = Ok (f', t') ->
    transition FnText t f' t'.
Proof.
  intros t f' t' Hlt H; simpl in H; unfold tokText in H.
  destruct (skipWhitespace_spec t)
    as (Hbs & Htok & _ & Hge & Hle & Hnws & Hstay & Hmove).
  remember (skipWhitespace t) as t1 eqn:Ht1.
  cbv zeta in H. rewrite Hbs in H.
  specialize (Hle (Nat.lt_le_incl _ _ Hlt)).
  destruct (len (bs t) <=? pos t1) eqn:Hend.
  { injection H as <- <-. apply Nat.leb_le in Hend.
    unfold transition. split; [exact Hbs|]. split; [lia|]. split.
    - exists (pos t), []. rewrite Htok, app_nil_r.
      repeat split; try lia. constructor.
    - intros g _ Hlt'; lia. }
  apply Nat.leb_gt in Hend.
  destruct (textLoop (len (bs t) - pos t1) (bs t) (pos t1) false)
    as [e|msg] eqn:Hloop; [|discriminate].
  injection H as <- <-.
  pose proof (textLoop_ge _ _ _ _ _ Hloop) as Hge'.
  pose proof (textLoop_le _ _ _ _ _ Hle Hloop) as Hle'.
  unfold transition; simpl. rewrite Hbs, Htok.
  split; [reflexivity|]. split; [lia|]. split.
  - eexists (pos t1), [_]; repeat split; try lia. repeat constructor.
  - intros g Hg Hlt'; injection Hg as <-.
    destruct (Nat.eq_dec e (pos t)) as [Heq|Hne].
    + (* nothing was consumed: the cursor is on a parenthesis *)
      assert (Hp1 : pos t1 = pos t) by lia.
      rewrite Hp1 in Hloop.
      rewrite Heq.
      destruct (index (bs t) (pos t) =? Rune.rparen)%Z eqn:Er;
        destruct (index (bs t) (pos t) =? Rune.lparen)%Z eqn:El;
        unfold rank; rewrite ?Er, ?El; try lia.
      * apply lparen_not_rparen in El; congruence.
      * replace (len (bs t) - pos t)
          with (S (len (bs t) - pos t - 1)) in Hloop by lia.
        apply textLoop_move in Hloop; auto; lia.
    + assert (Hgt : pos t < e) by lia.
      unfold rank; split_ifs; lia.
Qed.

(** Every transition the loop of [Tokenize] makes satisfies [transition]. *)
Lemma call_transition :
  forall f t f' t',
    pos t < len (bs t) ->
    call f t = Ok (f', t') ->
    transition f t f' t'.
Proof.
  intros f t f' t' Hlt H; destruct f.
  - apply dispatch_transition; auto.
  - now apply tokText_transition.
  - apply paren_transition; auto.
  - apply dispatch_transition; auto.
  - apply paren_transition; auto.
  - now apply tokAtom_transition.
  - apply dispatch_transition; auto.
  - now apply tokEOF_transition.
Qed.

(** ** The loop of [Tokenize] *)

(** The rank of the current state bounds the transitions still to come. *)
Lemma loop_halts :
  forall fuel t f,
    state t = Some f ->
    (pos t < len (bs t) -> rank f (bs t) (pos t) <= fuel) ->
    halted (loop fuel (len (bs t)) t) = true.
Proof.
  induction fuel as [|fuel IH]; intros t f Hst Hrk.
  - simpl. rewrite Hst.
    destruct (pos t <? len (bs t)) eqn:Hlt; [|reflexivity].
    apply Nat.ltb_lt in Hlt.
    pose proof (rank_pos f (bs t) (pos t) Hlt). specialize (Hrk Hlt). lia.
  - simpl. rewrite Hst.
    destruct (pos t <? len (bs t)) eqn:Hlt; [|reflexivity].
    apply Nat.ltb_lt in Hlt. specialize (Hrk Hlt).
    destruct (call f t) as [[f' t']|msg] eqn:Hcall; [|reflexivity].
    destruct (call_transition _ _ _ _ Hlt Hcall) as (Hbs & Hpos & _ & Hdec).
    destruct f' as [g|].
    + replace (len (bs t)) with (len (bs (set_state t' (Some g))))
        by (simpl; now rewrite Hbs).
      apply (IH _ g); [reflexivity|].
      simpl. rewrite Hbs. intros Hlt'.
      specialize (Hdec g eq_refl Hlt'). lia.
    + destruct fuel; reflexivity.
Qed.

(** Once the loop has ended, more fuel changes nothing. *)
Lemma loop_more_fuel :
  forall n m l t,
    halted (loop n l t) = true -> n <= m -> loop m l t = loop n l t.
Proof.
  induction n as [|n IH]; intros m l t Hh Hle.
  - destruct m as [|m]; [reflexivity|].
    simpl in *. destruct (state t); [|reflexivity].
    destruct (pos t <? l); [discriminate|reflexivity].
  - destruct m as [|m]; [lia|].
    simpl in *. destruct (state t); [|reflexivity].
    destruct (pos t <? l); [|reflexivity].
    destruct (call t0 t) as [[f' t']|msg]; [|reflexivity].
    apply IH; [exact Hh|lia].
Qed.

(** *** Positions of the emitted tokens *)

Lemma nondecreasing_app :
  forall l new p,
    nondecreasing l ->
    Forall (fun k => Pos k <= p) l ->
    Forall (fun k => Pos k = p) new ->
    nondecreasing (l ++ new).
Proof.
  intros l new p Hl Hle Hnew i a b Ha Hb.
  rewrite Forall_forall in Hle, Hnew.
  destruct (Nat.lt_ge_cases (S i) (len l)) as [Hin|Hout].
  - rewrite nth_error_app1 in Ha, Hb by lia. eauto.
  - rewrite nth_error_app2 in Hb by lia.
    apply nth_error_In, Hnew in Hb.
    destruct (Nat.lt_ge_cases i (len l)) as [Hin|Hout'].
    + rewrite nth_error_app1 in Ha by lia.
      apply nth_error_In, Hle in Ha. lia.
    + rewrite nth_error_app2 in Ha by lia.
      apply nth_error_In, Hnew in Ha. lia.
Qed.

Lemma transition_tokens_ok :
  forall f t f' t',
    transition f t f' t' -> tokens_ok t -> tokens_ok t'.
Proof.
  intros f t f' t' (Hbs & Hpos & (p & new & Htok & Hp & Hplt & Hnew) & _)
         [Hall Hnd].
  unfold tokens_ok. rewrite Htok, Hbs. split.
  - apply Forall_app; split.
    + eapply Forall_impl; [|exact Hall]. simpl; intros k Hk; lia.
    + eapply Forall_impl; [|exact Hnew]. simpl; intros k Hk; lia.
  - apply nondecreasing_app with (p := p); auto.
    eapply Forall_impl; [|exact Hall]. simpl; intros k Hk; lia.
Qed.

Lemma loop_tokens_ok :
  forall fuel t toks e,
    tokens_ok t ->
    loop fuel (len (bs t)) t = Returned toks e ->
    e = None
    /\ Forall (fun k => Pos k < len (bs t)) toks
    /\ nondecreasing toks.
Proof.
  induction fuel as [|fuel IH]; intros t toks e Hok H.
  - simpl in H. destruct Hok as [Hall Hnd].
    assert (Hret : Returned (tokens t) None = Returned toks e).
    { destruct (state t); [|exact H].
      destruct (pos t <? len (bs t)); [discriminate|exact H]. }
    injection Hret as <- <-. repeat split; auto.
    eapply Forall_impl; [|exact Hall]. simpl; intros k Hk; lia.
  - simpl in H.
    assert (Hdone : Returned (tokens t) None = Returned toks e ->
                    e = None /\ Forall (fun k => Pos k < len (bs t)) toks
                    /\ nondecreasing toks).
    { destruct Hok as [Hall Hnd].
      intros Hret; injection Hret as <- <-. repeat split; auto.
      eapply Forall_impl; [|exact Hall]. simpl; intros k Hk; lia. }
    destruct (state t) as [f|]; [|auto].
    destruct (pos t <? len (bs t)) eqn:Hlt; [|auto].
    apply Nat.ltb_lt in Hlt.
    destruct (call f t) as [[f' t']|msg] eqn:Hcall; [|discriminate].
    pose proof (call_transition _ _ _ _ Hlt Hcall) as Htr.
    pose proof (transition_tokens_ok _ _ _ _ Htr Hok) as Hok'.
    destruct Htr as (Hbs & _).
    rewrite <- Hbs.
    apply (IH (set_state t' f')).
    + exact Hok'.
    + simpl. rewrite Hbs. exact H.
Qed.

(** ** Unfolding a run of [Tokenize] by hand *)

Lemma loop_step :
  forall fuel l t f,
    state t = Some f ->
    pos t < l ->
    loop (S fuel) l t
    = match call f t with
      | Panic msg => Panicked msg
      | Ok (f', t') => loop fuel l (set_state t' f')
      end.
Proof.
  intros fuel l t f Hst Hlt; simpl.
  apply Nat.ltb_lt in Hlt. now rewrite Hst, Hlt.
Qed.

(** [skipWhitespace] over a run of whitespace that ends at [q]. *)
Lemma skipWhitespace_run :
  forall t q,
    pos t <= q <= len (bs t) ->
    (forall i, pos t <= i < q -> isWhitespace (index (bs t) i) = true) ->
    (q < len (bs t) -> isWhitespace (index (bs t) q) = false) ->
    skipWhitespace t = set_pos t q.
Proof.
  intros t q Hq Hrun Hend. unfold skipWhitespace.
  rewrite skipLoop_advanceWhile.
  rewrite (advanceWhile_run isWhitespace _ _ _ q); auto; lia.
Qed.

Lemma set_pos_same : forall t, set_pos t (pos t) = t.
Proof. now intros []. Qed.

Lemma index_app_l :
  forall (a b : list rune) i, i < len a -> index (a ++ b) i = nth i a 0%Z.
Proof. intros; unfold index; now apply app_nth1. Qed.

Lemma index_app_mid :
  forall (a b : list rune) c, index (a ++ c :: b) (len a) = c.
Proof. intros; unfold index; apply nth_middle. Qed.

Lemma forallb_nth :
  forall (P : rune -> bool) (l : list rune) i,
    forallb P l = true -> i < len l -> P (nth i l 0%Z) = true.
Proof.
  intros P l i Hall Hi.
  rewrite forallb_forall in Hall. apply Hall, nth_In, Hi.
Qed.

(** A form whose first element is a form: [tokNilOrAtom] panics. *)
Lemma nested_form_run :
  forall ws1 ws2 rest fuel,
    forallb isWhitespace ws1 = true ->
    forallb isWhitespace ws2 = true ->
    TokenizeFuel (S (S (S fuel)))
      (NewTokenizer (ws1 ++ Rune.lparen :: ws2 ++ Rune.lparen :: rest))
    = Panicked "invalid: cannot start form / expected atom or nil".
Proof.
  intros ws1 ws2 rest fuel H1 H2.
  set (s := ws1 ++ Rune.lparen :: ws2 ++ Rune.lparen :: rest).
  assert (Hlen : len s = len ws1 + 1 + len ws2 + 1 + len rest).
  { unfold s. rewrite length_app; simpl. rewrite length_app; simpl. lia. }
  assert (Hs2 : s = (ws1 ++ Rune.lparen :: ws2) ++ Rune.lparen :: rest).
  { unfold s. now rewrite <- app_assoc. }
  assert (Hi1 : index s (len ws1) = Rune.lparen) by apply index_app_mid.
  assert (Hi2 : index s (len ws1 + 1 + len ws2) = Rune.lparen).
  { rewrite Hs2.
    replace (len ws1 + 1 + len ws2) with (len (ws1 ++ Rune.lparen :: ws2))
      by (rewrite length_app; simpl; lia).
    apply index_app_mid. }
  unfold TokenizeFuel; proj.
  (* tokTextOrForm *)
  rewrite (loop_step _ _ _ FnTextOrForm) by (proj; auto; lia).
  cbn [call]. unfold tokTextOrForm.
  rewrite (skipWhitespace_run _ (len ws1)); proj; try lia.
  2:{ intros i Hi. unfold s. rewrite index_app_l by lia.
      apply forallb_nth; [exact H1|lia]. }
  2:{ intros _. rewrite Hi1. reflexivity. }
  replace (len s <=? len ws1) with false by (symmetry; apply Nat.leb_gt; lia).
  rewrite Hi1. cbn [Z.eqb Rune.lparen Pos.eqb]. proj.
  (* tokForm *)
  rewrite (loop_step _ _ _ FnForm) by (proj; auto; lia).
  cbn [call]. unfold tokForm. proj.
  (* tokNilOrAtom *)
  rewrite (loop_step _ _ _ FnNilOrAtom) by (proj; auto; lia).
  cbn [call]. unfold tokNilOrAtom.
  rewrite (skipWhitespace_run _ (len ws1 + 1 + len ws2)); proj; try lia.
  2:{ intros i Hi. rewrite Hs2.
      rewrite index_app_l by (rewrite length_app; simpl; lia).
      rewrite app_nth2 by lia.
      replace (i - len ws1) with (S (i - len ws1 - 1)) by lia. simpl.
      apply forallb_nth; [exact H2|lia]. }
  2:{ intros _. rewrite Hi2. reflexivity. }
  replace (len s <=? len ws1 + 1 + len ws2) with false
    by (symmetry; apply Nat.leb_gt; lia).
  rewrite Hi2. reflexivity.
Qed.

(** *** Text that runs into an invalid escape *)

Lemma textLoop_invalid_escape :
  forall txt rest fuel e,
    plainText txt = true ->
    escapable rest = false ->
    e <= len txt ->
    len (txt ++ Rune.backslash :: rest) - e <= fuel ->
    textLoop fuel (txt ++ Rune.backslash :: rest) e false
    = Panic "invalid escape character".
Proof.
  intros txt rest fuel e Hplain Hesc.
  set (s := txt ++ Rune.backslash :: rest).
  assert (Hlen : len s = len txt + 1 + len rest).
  { unfold s. rewrite length_app; simpl. lia. }
  revert e. induction fuel as [|fuel IH]; intros e He Hf; [lia|].
  simpl.
  replace (e <? len s) with true by (symmetry; apply Nat.ltb_lt; lia).
  destruct (Nat.eq_dec e (len txt)) as [->|Hne].
  - assert (Hi : index s (len txt) = Rune.backslash) by apply index_app_mid.
    rewrite Hi. cbn [Z.eqb Rune.backslash Rune.rparen Rune.lparen Pos.eqb
                     negb andb orb].
    assert (Hnext :
              (len txt + 1 <? len s)
              && ((index s (len txt + 1) =? Rune.lparen)%Z
                  || (index s (len txt + 1) =? Rune.rparen)%Z
                  || (index s (len txt + 1) =? Rune.backslash)%Z) = false
              /\ (len txt + 1 <? len s)
                 && (index s (len txt + 1) =? Rune.plus)%Z = false).
    { destruct rest as [|c rest'].
      - replace (len txt + 1 <? len s) with false
          by (symmetry; apply Nat.ltb_ge; simpl in Hlen; lia).
        split; reflexivity.
      - assert (Hc : index s (len txt + 1) = c).
        { unfold s, index. rewrite app_nth2 by lia.
          replace (len txt + 1 - len txt) with 1 by lia. reflexivity. }
        rewrite Hc. simpl in Hesc.
        apply orb_false_iff in Hesc as [Hesc Hplus].
        rewrite Hesc, Hplus, !andb_false_r. split; reflexivity. }
    destruct Hnext as [-> ->]. reflexivity.
  - assert (Hi : index s e = nth e txt 0%Z)
      by (unfold s; apply index_app_l; lia).
    assert (Hp := forallb_nth _ txt e Hplain ltac:(lia)).
    rewrite <- Hi in Hp. cbv beta in Hp.
    apply andb_true_iff in Hp as [Hp Hb].
    rewrite Hp. apply negb_true_iff in Hb. rewrite Hb.
    cbn [andb orb]. apply IH; lia.
Qed.

(** Text that reaches a backslash which starts no valid escape:
    [tokText] panics. *)
Lemma invalid_escape_run :
  forall txt rest fuel,
    plainText txt = true ->
    escapable rest = false ->
    TokenizeFuel (S (S fuel)) (NewTokenizer (txt ++ Rune.backslash :: rest))
    = Panicked "invalid escape character".
Proof.
  intros txt rest fuel Hplain Hesc.
  set (s := txt ++ Rune.backslash :: rest).
  assert (Hlen : len s = len txt + 1 + len rest).
  { unfold s. rewrite length_app; simpl. lia. }
  assert (Hi : index s (len txt) = Rune.backslash) by apply index_app_mid.
  unfold TokenizeFuel; proj.
  set (t0 := set_state (NewTokenizer s) (Some FnTextOrForm)).
  assert (Hbs0 : bs t0 = s) by reflexivity.
  assert (Hpos0 : pos t0 = 0) by reflexivity.
  destruct (skipWhitespace_spec t0)
    as (Hbs & Htok & Hst & Hge & _ & Hnws & _ & _).
  rewrite Hbs0 in *.
  assert (Hp1 : pos (skipWhitespace t0) <= len txt).
  { unfold skipWhitespace; proj. rewrite skipLoop_advanceWhile.
    apply advanceWhile_stop; [lia|]. rewrite Hbs0. now rewrite Hi. }
  (* the rune the cursor stops on is not a parenthesis *)
  assert (Hnp : (index s (pos (skipWhitespace t0)) =? Rune.lparen)%Z = false).
  { destruct (Nat.eq_dec (pos (skipWhitespace t0)) (len txt)) as [->|Hne].
    - now rewrite Hi.
    - unfold s. rewrite index_app_l by lia.
      assert (Hp := forallb_nth _ txt (pos (skipWhitespace t0)) Hplain
                      ltac:(lia)).
      cbv beta in Hp. apply andb_true_iff in Hp as [Hp _].
      apply andb_true_iff in Hp as [_ Hp]. now apply negb_true_iff in Hp. }
  (* tokTextOrForm *)
  rewrite (loop_step _ _ _ FnTextOrForm) by (auto; lia).
  cbn [call]. unfold tokTextOrForm. cbv zeta. rewrite Hbs.
  replace (len s <=? pos (skipWhitespace t0)) with false
    by (symmetry; apply Nat.leb_gt; lia).
  rewrite Hnp.
  (* tokText *)
  set (t1 := set_state (skipWhitespace t0) (Some FnText)).
  assert (Hbs1 : bs t1 = s) by (unfold t1; proj; exact Hbs).
  assert (Hpos1 : pos t1 = pos (skipWhitespace t0)) by reflexivity.
  rewrite (loop_step _ _ _ FnText) by (auto; lia).
  cbn [call]. unfold tokText. cbv zeta.
  assert (Hskip : skipWhitespace t1 = t1).
  { rewrite <- (set_pos_same t1) at 2.
    apply skipWhitespace_run; rewrite ?Hbs1, ?Hpos1; try lia.
    intros _. apply Hnws. lia. }
  rewrite Hskip, Hbs1, Hpos1.
  replace (len s <=? pos (skipWhitespace t0)) with false
    by (symmetry; apply Nat.leb_gt; lia).
  unfold s at 1 2.
  rewrite textLoop_invalid_escape; auto.
Qed.

(** ** The end-of-input triple *)

Lemma tokEOF_appends :
  forall t, tokEOF t = Ok (None, append t (eofTriple (pos t))).
Proof. reflexivity. Qed.

Lemma Token_eqb_Pos :
  forall a b, Token_eqb a b = true -> Pos a = Pos b.
Proof.
  intros a b H; unfold Token_eqb in H.
  apply andb_true_iff in H as [_ H]. now apply Nat.eqb_eq.
Qed.

Example endsWithTriple_tokEOF :
  forall t,
    match tokEOF t with
    | Ok (_, t') => endsWithTriple (pos t) (tokens t') = true
    | Panic _ => False
    end.
Proof.
  intros t; simpl. unfold endsWithTriple.
  rewrite rev_app_distr; simpl.
  unfold Token_eqb; simpl. now rewrite Nat.eqb_refl.
Qed.

(** ** Properties of a whole run *)

Lemma NewTokenizer_tokens_ok :
  forall input f, tokens_ok (set_state (NewTokenizer input) f).
Proof.
  intros input f; split; simpl; [constructor|].
  intros [|i] a b Ha; discriminate.
Qed.

(** Every token [Tokenize] returns was emitted with the cursor inside the
    input: [tokEOF], which is only ever the next state when the cursor has
    reached the end, is never called by the loop. *)
Lemma tokenize_tokens :
  forall input toks e,
    tokenize input = Returned toks e ->
    e = None
    /\ Forall (fun k => Pos k < len input) toks
    /\ nondecreasing toks.
Proof.
  intros input toks e H.
  unfold tokenize, Tokenize, TokenizeFuel in H.
  eapply (loop_tokens_ok _ (set_state (NewTokenizer input) (Some FnTextOrForm)));
    [apply NewTokenizer_tokens_ok | exact H].
Qed.

Lemma Tokenize_halts :
  forall t, halted (Tokenize t) = true.
Proof.
  intros t. unfold Tokenize, TokenizeFuel.
  change (len (bs t))
    with (len (bs (set_state t (Some FnTextOrForm)))) at 2.
  apply (loop_halts _ _ FnTextOrForm); [reflexivity|].
  intros _. simpl. lia.
Qed.

(** ** A run on plain text *)

(** Bare text at top level: for the input [hello] the run returns one
    [Text] token with the text [hello] at position 0. *)
Example tokenize_hello :
  tokenize (Rune.of_ascii "hello")
  = Returned [ {| Typ := TypeText; Text := "hello"; Pos := 0 |} ] None.
Proof. reflexivity. Qed.

(** ** The claims *)

(** C1.  The claim: for every input, also the empty one, [tokenize] returns
    tokens whose last three are [FormStart "("], [Atom "eof"] and
    [FormEnd ")"] at the position of the end of the input.  The code does
    not do so: the loop of [Tokenize] stops as soon as the cursor reaches
    the end, which is exactly when a method returns [tokEOF], so [tokEOF]
    is never called.  The empty input gives no token at all, and for no
    input does the result end with the triple. *)
Theorem tokenize_never_ends_with_eof :
  tokenize [] = Returned [] None
  /\ forall input, endsWithEOF (len input) (tokenize input) = false.
Proof.
  split; [reflexivity|].
  intros input.
  destruct (tokenize input) as [toks e| |] eqn:H; try reflexivity.
  apply tokenize_tokens in H as (_ & Hall & _).
  unfold endsWithEOF, endsWithTriple.
  destruct (rev toks) as [|c [|b [|a r]]] eqn:Hrev; try reflexivity.
  cbn [rev eofTriple app].
  destruct (Token_eqb c _) eqn:Hc; [|apply andb_false_r].
  apply Token_eqb_Pos in Hc. cbn [Pos] in Hc.
  assert (Hin : In c toks).
  { apply in_rev. rewrite Hrev. now left. }
  rewrite Forall_forall in Hall. apply Hall in Hin. lia.
Qed.

(** C2.  The claim: a backslash that starts no valid escape makes
    [tokenize] return an [InvalidEscape] error with the position of the
    backslash.  The code panics instead, with a message and no position:
    for text without parentheses and backslashes that is followed by a
    backslash and then by the end of the input or by a rune other than
    [( ) \ +], [tokenize] does not return. *)
Theorem tokenize_invalid_escape_panics :
  forall txt rest,
    plainText txt = true ->
    escapable rest = false ->
    tokenize (txt ++ Rune.backslash :: rest)
    = Panicked "invalid escape character".
Proof.
  intros txt rest Hplain Hesc.
  unfold tokenize, Tokenize.
  set (s := txt ++ Rune.backslash :: rest).
  assert (Hlen : len s = len txt + 1 + len rest).
  { unfold s. rewrite length_app; simpl. lia. }
  cbn [bs pos NewTokenizer].
  replace (3 * (len s - 0) + 1) with (S (S (3 * len s - 1))) by lia.
  now apply invalid_escape_run.
Qed.

Lemma tokenize_invalid_escape_panics_witness :
  tokenize (Rune.of_ascii "a\x") = Panicked "invalid escape character"
  /\ tokenize [97%Z; Rune.backslash] = Panicked "invalid escape character".
Proof.
  split.
  - apply (tokenize_invalid_escape_panics [97%Z] [120%Z]); reflexivity.
  - apply (tokenize_invalid_escape_panics [97%Z] []); reflexivity.
Defined.

(** C3.  The claim: when the first rune after a form-opening [(] and
    whitespace is [(], [tokenize] returns an [ExpectedAtomOrClose] error
    with the position of that second [(].  The code panics instead, with a
    message and no position: for an input that opens a form, possibly after
    whitespace, and has [(] as the next rune that is not whitespace,
    [tokenize] does not return. *)
Theorem tokenize_nested_form_panics :
  forall ws1 ws2 rest,
    forallb isWhitespace ws1 = true ->
    forallb isWhitespace ws2 = true ->
    tokenize (ws1 ++ Rune.lparen :: ws2 ++ Rune.lparen :: rest)
    = Panicked "invalid: cannot start form / expected atom or nil".
Proof.
  intros ws1 ws2 rest H1 H2.
  unfold tokenize, Tokenize.
  set (s := ws1 ++ Rune.lparen :: ws2 ++ Rune.lparen :: rest).
  assert (Hlen : 2 <= len s).
  { unfold s. rewrite length_app; simpl. rewrite length_app; simpl. lia. }
  cbn [bs pos NewTokenizer].
  replace (3 * (len s - 0) + 1) with (S (S (S (3 * len s - 2)))) by lia.
  now apply nested_form_run.
Qed.

Lemma tokenize_nested_form_panics_witness :
  tokenize (Rune.of_ascii "((a))")
  = Panicked "invalid: cannot start form / expected atom or nil"
  /\ tokenize (32%Z :: Rune.lparen :: 32%Z :: 9%Z :: Rune.of_ascii "(a))")
     = Panicked "invalid: cannot start form / expected atom or nil".
Proof.
  split.
  - apply (tokenize_nested_form_panics [] [] (Rune.of_ascii "a))"));
      reflexivity.
  - apply (tokenize_nested_form_panics [32%Z] [32%Z; 9%Z]
             (Rune.of_ascii "a))")); reflexivity.
Defined.

(** C4.  For every input the loop of [Tokenize] ends, by returning or by a
    panic, after a number of transitions that is linear in the length of
    the input: at most three for each rune and one more.  The run is then
    the same for any larger number of transitions allowed.  (No cycle of
    transitions keeps the cursor in place: [rank] goes down on every
    transition, see [call_transition].) *)
Theorem Tokenize_terminates :
  forall input,
    exists n,
      n <= 3 * len input + 1
      /\ halted (TokenizeFuel n (NewTokenizer input)) = true
      /\ forall m, n <= m ->
                   TokenizeFuel m (NewTokenizer input) = tokenize input.
Proof.
  intros input. exists (3 * len input + 1).
  assert (Hfuel : 3 * len input + 1
                  = 3 * (len (bs (NewTokenizer input))
                         - pos (NewTokenizer input)) + 1)
    by (simpl; lia).
  pose proof (Tokenize_halts (NewTokenizer input)) as Hh.
  unfold Tokenize in Hh. rewrite <- Hfuel in Hh.
  split; [lia|]. split; [exact Hh|].
  intros m Hm. unfold tokenize, Tokenize. rewrite <- Hfuel.
  unfold TokenizeFuel in *. now apply loop_more_fuel.
Qed.

(** C5.  In the tokens [tokenize] returns, the positions of adjacent
    tokens never decrease. *)
Theorem tokenize_positions_nondecreasing :
  forall input toks e,
    tokenize input = Returned toks e ->
    forall i a b,
      nth_error toks i = Some a ->
      nth_error toks (S i) = Some b ->
      Pos a <= Pos b.
Proof.
  intros input toks e H.
  apply tokenize_tokens in H as (_ & _ & Hnd). exact Hnd.
Qed.

Lemma tokenize_positions_nondecreasing_witness :
  tokenize (Rune.of_ascii "(a) b")
  = Returned [ {| Typ := TypeFormStart; Text := "("; Pos := 0 |};
               {| Typ := TypeAtom; Text := "a"; Pos := 1 |};
               {| Typ := TypeFormEnd; Text := ")"; Pos := 2 |};
               {| Typ := TypeText; Text := "b"; Pos := 4 |} ] None
  /\ Pos {| Typ := TypeFormEnd; Text := ")"; Pos := 2 |}
     <= Pos {| Typ := TypeText; Text := "b"; Pos := 4 |}.
Proof.
  split; [reflexivity|].
  apply (tokenize_positions_nondecreasing (Rune.of_ascii "(a) b") _ None
           eq_refl 2); reflexivity.
Defined.

(** C6.  For the input [(a)] the tokens returned, ignoring a trailing eof
    triple, are exactly [FormStart "("] at 0, [Atom "a"] at 1 and
    [FormEnd ")"] at 2.  (The run returns these three tokens and nothing
    else, so there is no triple to ignore.) *)
Theorem tokenize_form_a :
  exists toks,
    tokenize (Rune.of_ascii "(a)") = Returned toks None
    /\ ignoringEOF 3 toks
       = [ {| Typ := TypeFormStart; Text := "("; Pos := 0 |};
           {| Typ := TypeAtom; Text := "a"; Pos := 1 |};
           {| Typ := TypeFormEnd; Text := ")"; Pos := 2 |} ].
Proof.
  eexists. split; reflexivity.
Qed.

(** C7.  For the input [a\(b] the run returns one [Text] token whose text
    is the input as it stands, backslash included: the scan of [tokText]
    goes over the escaped parenthesis to the end of the input. *)
Theorem tokenize_escaped_paren :
  tokenize (Rune.of_ascii "a\(b")
  = Returned [ {| Typ := TypeText; Text := "a\(b"; Pos := 0 |} ] None
  /\ textLoop 4 (Rune.of_ascii "a\(b") 0 false = Ok 4.
Proof.
  split; reflexivity.
Qed.

(** C8.  For the input [\+(\+] the two [\+] markers switch the quoted
    flag on and off, the parenthesis between them is scanned as text, and
    the run returns one [Text] token holding the whole input; no
    [FormStart] token is returned. *)
Theorem tokenize_quoted_paren :
  tokenize (Rune.of_ascii "\+(\+")
  = Returned [ {| Typ := TypeText; Text := "\+(\+"; Pos := 0 |} ] None
  /\ textLoop 5 (Rune.of_ascii "\+(\+") 0 false = Ok 5
  /\ textLoop 3 (Rune.of_ascii "\+(\+") 2 true = Ok 5
  /\ textLoop 3 (Rune.of_ascii "\+(\+") 2 false = Ok 2.
Proof.
  repeat split; reflexivity.
Qed.




(** C10.  When the first rune after a form-opening [(] and whitespace is
    neither a parenthesis nor in the class of atom runes, [tokNilOrAtom]
    goes to [tokAtom], and [tokAtom] appends an [Atom] token with empty
    text at the position of that rune and leaves the cursor where it
    is. *)
Theorem tokAtom_empty_atom :
  forall t c,
    pos (skipWhitespace t) < len (bs t) ->
    index (bs t) (pos (skipWhitespace t)) = c ->
    (c =? Rune.lparen)%Z = false ->
    (c =? Rune.rparen)%Z = false ->
    isAlphaNum c = false ->
    exists t1 t2,
      tokNilOrAtom t = Ok (Some FnAtom, t1)
      /\ pos t1 = pos (skipWhitespace t)
      /\ tokAtom t1 = Ok (Some FnNilOrTextOrForm, t2)
      /\ tokens t2
         = tokens t1 ++ [ {| Typ := TypeAtom; Text := ""; Pos := pos t1 |} ]
      /\ pos t2 = pos t1.
Proof.
  intros t c Hlt Hc Hl Hr Han.
  destruct (skipWhitespace_spec t) as (Hbs & _).
  exists (skipWhitespace t). eexists.
  split.
  { unfold tokNilOrAtom. cbv zeta. rewrite Hbs, Hc, Hl, Hr.
    replace (len (bs t) <=? pos (skipWhitespace t)) with false
      by (symmetry; apply Nat.leb_gt; exact Hlt).
    reflexivity. }
  split; [reflexivity|].
  split; [reflexivity|].
  cbn [tokens pos set_pos append].
  rewrite atomLoop_advanceWhile, Hbs.
  rewrite advanceWhile_stay by (now rewrite Hc).
  split; [|reflexivity].
  unfold slice. rewrite Nat.sub_diag. reflexivity.
Qed.

Lemma tokAtom_empty_atom_witness :
  tokenize (Rune.of_ascii "(*)")
  = Returned [ {| Typ := TypeFormStart; Text := "("; Pos := 0 |};
               {| Typ := TypeAtom; Text := ""; Pos := 1 |};
               {| Typ := TypeText; Text := "*"; Pos := 1 |};
               {| Typ := TypeFormEnd; Text := ")"; Pos := 2 |} ] None
  /\ exists t1 t2,
      tokNilOrAtom {| bs := Rune.of_ascii "(*)"; pos := 1;
                      tokens := [ {| Typ := TypeFormStart; Text := "(";
                                     Pos := 0 |} ];
                      state := Some FnNilOrAtom |}
      = Ok (Some FnAtom, t1)
      /\ pos t1 = 1
      /\ tokAtom t1 = Ok (Some FnNilOrTextOrForm, t2)
      /\ tokens t2
         = tokens t1 ++ [ {| Typ := TypeAtom; Text := ""; Pos := pos t1 |} ]
      /\ pos t2 = pos t1.
Proof.
  split; [reflexivity|].
  apply (tokAtom_empty_atom
           {| bs := Rune.of_ascii "(*)"; pos := 1;
              tokens := [ {| Typ := TypeFormStart; Text := "("; Pos := 0 |} ];
              state := Some FnNilOrAtom |} 42%Z);
    first [reflexivity | vm_compute; lia].
Defined.

(** ** Further properties *)

(** The whitespace runes are space, [\n], [\r], [\t], [\v] and
    [\f]. *)
Theorem isWhitespace_spec :
  forall r,
    isWhitespace r = true
    <-> (r = 32 \/ r = 10 \/ r = 13 \/ r = 9 \/ r = 11 \/ r = 12)%Z.
Proof.
  intros r; unfold isWhitespace; simpl.
  rewrite !orb_true_iff, !Z.eqb_eq. intuition discriminate.
Qed.

(** X1.  When [Tokenize] returns, its error is [nil] and every token carries a
    position inside the input: no token is emitted at the end of the
    input. *)
Theorem tokenize_returns_tokens_inside :
  forall input toks e,
    tokenize input = Returned toks e ->
    e = None /\ Forall (fun k => Pos k < len input) toks.
Proof.
  intros input toks e H.
  apply tokenize_tokens in H as (He & Hall & _). now split.
Qed.

Lemma tokenize_returns_tokens_inside_witness :
  @None string = None
  /\ Forall (fun k => Pos k < 5)
       [ {| Typ := TypeText; Text := "hello"; Pos := 0 |} ].
Proof.
  apply (tokenize_returns_tokens_inside (Rune.of_ascii "hello") _ None).
  reflexivity.
Defined.

(** ** The text of a [Text] token *)

Lemma skipn_index :
  forall (s : list rune) e,
    e < len s -> skipn e s = index s e :: skipn (e + 1) s.
Proof.
  induction s as [|a s IH]; intros e He; simpl in He; [lia|].
  destruct e as [|e]; [reflexivity|].
  simpl. apply IH. lia.
Qed.

Lemma slice_cons :
  forall (s : list rune) e e',
    e < e' -> e < len s ->
    slice s e e' = index s e :: slice s (e + 1) e'.
Proof.
  intros s e e' He Hl. unfold slice.
  rewrite (skipn_index s e Hl).
  replace (e' - e) with (S (e' - (e + 1))) by lia. reflexivity.
Qed.

Lemma slice_cons2 :
  forall (s : list rune) e e',
    e + 1 < e' -> e + 1 < len s ->
    slice s e e' = index s e :: index s (e + 1) :: slice s (e + 1 + 1) e'.
Proof.
  intros s e e' He Hl.
  rewrite slice_cons by lia. now rewrite (slice_cons s (e + 1)) by lia.
Qed.

Lemma slice_empty : forall (s : list rune) e, slice s e e = [].
Proof. intros; unfold slice; now rewrite Nat.sub_diag. Qed.

(** What the scan of [tokText] has covered when it ends without a panic
    is text for [scanText], and it ends at the end of the input or on an
    unquoted parenthesis. *)
Lemma textLoop_sound :
  forall fuel s e q e',
    len s - e <= fuel ->
    textLoop fuel s e q = Ok e' ->
    e <= e' <= Nat.max e (len s)
    /\ exists q',
        scanText q (slice s e e') = Some q'
        /\ scanEnds q' (skipn e' s) = true.
Proof.
  induction fuel as [|fuel IH]; intros s e q e' Hf H; simpl in H.
  - injection H as <-. split; [lia|]. exists q.
    rewrite slice_empty, skipn_all2 by lia. now split.
  - destruct (e <? len s) eqn:Hlt; simpl in H.
    2:{ injection H as <-. apply Nat.ltb_ge in Hlt. split; [lia|].
        exists q. rewrite slice_empty, skipn_all2 by lia. now split. }
    apply Nat.ltb_lt in Hlt.
    destruct ((negb (index s e =? Rune.rparen)%Z
               && negb (index s e =? Rune.lparen)%Z) || q) eqn:Hc.
    2:{ injection H as <-. split; [lia|]. exists q.
        rewrite slice_empty, (skipn_index s e Hlt). split; [reflexivity|].
        apply orb_false_iff in Hc as [Hc ->]. simpl.
        destruct (index s e =? Rune.rparen)%Z; [reflexivity|].
        destruct (index s e =? Rune.lparen)%Z; [reflexivity|discriminate]. }
    destruct (index s e =? Rune.backslash)%Z eqn:Hb.
    + destruct (e + 1 <? len s) eqn:Hlt1; simpl in H; [|discriminate].
      apply Nat.ltb_lt in Hlt1.
      destruct ((index s (e + 1) =? Rune.lparen)%Z
                || (index s (e + 1) =? Rune.rparen)%Z
                || (index s (e + 1) =? Rune.backslash)%Z) eqn:Hesc.
      * pose proof (textLoop_ge _ _ _ _ _ H) as Hge.
        apply IH in H as (Hr & q' & Hscan & Hend); [|lia].
        split; [lia|]. exists q'. split; [|exact Hend].
        destruct (Nat.eq_dec e' (e + 1 + 1)) as [->|Hne].
        -- rewrite slice_cons2, slice_empty in * by lia.
           simpl. now rewrite Hb, Hesc.
        -- rewrite slice_cons2 by lia. simpl. now rewrite Hb, Hesc.
      * destruct (index s (e + 1) =? Rune.plus)%Z eqn:Hplus; [|discriminate].
        pose proof (textLoop_ge _ _ _ _ _ H) as Hge.
        apply IH in H as (Hr & q' & Hscan & Hend); [|lia].
        split; [lia|]. exists q'. split; [|exact Hend].
        rewrite slice_cons2 by lia. simpl. now rewrite Hb, Hesc, Hplus.
    + pose proof (textLoop_ge _ _ _ _ _ H) as Hge.
      apply IH in H as (Hr & q' & Hscan & Hend); [|lia].
      split; [lia|]. exists q'. split; [|exact Hend].
      rewrite slice_cons by lia. simpl. now rewrite Hb, Hc.
Qed.

(** ** Well-formed tokens *)

Lemma slice_one :
  forall s p, p < len s -> slice s p (p + 1) = [index s p].
Proof.
  intros s p Hp. unfold slice, index.
  replace (p + 1 - p) with 1 by lia.
  revert p Hp. induction s as [|a s IH]; intros p Hp; simpl in Hp; [lia|].
  destruct p as [|p]; [reflexivity|].
  simpl. apply IH. lia.
Qed.

(** One call made by the loop keeps [state_ok] and appends well-formed
    tokens only. *)
Lemma call_wf :
  forall f t f' t',
    pos t < len (bs t) ->
    state_ok (Some f) t ->
    call f t = Ok (f', t') ->
    state_ok f' t'
    /\ exists new,
        tokens t' = tokens t ++ new /\ Forall (token_wf (bs t)) new.
Proof.
  intros f t f' t' Hlt Hok H.
  destruct (skipWhitespace_spec t)
    as (Hbs & Htok & _ & Hge & Hle & Hnws & Hstay & Hmove).
  specialize (Hle (Nat.lt_le_incl _ _ Hlt)).
  destruct f; simpl in H.
  - (* tokTextOrForm *)
    unfold tokTextOrForm in H; cbv zeta in H; rewrite Hbs in H.
    destruct (len (bs t) <=? pos (skipWhitespace t)) eqn:Hend.
    + injection H as <- <-. apply Nat.leb_le in Hend. split.
      * unfold state_ok. now rewrite Hbs.
      * exists []. rewrite Htok, app_nil_r. split; [reflexivity|constructor].
    + apply Nat.leb_gt in Hend. specialize (Hnws Hend).
      destruct (index (bs t) (pos (skipWhitespace t)) =? Rune.lparen)%Z
        eqn:El; injection H as <- <-; (split;
          [ unfold state_ok; rewrite Hbs; auto
          | exists []; rewrite Htok, app_nil_r;
            split; [reflexivity|constructor] ]).
  - (* tokText *)
    unfold tokText in H; cbv zeta in H; rewrite Hbs in H.
    destruct (len (bs t) <=? pos (skipWhitespace t)) eqn:Hend.
    + injection H as <- <-. apply Nat.leb_le in Hend. split.
      * unfold state_ok. now rewrite Hbs.
      * exists []. rewrite Htok, app_nil_r. split; [reflexivity|constructor].
    + apply Nat.leb_gt in Hend. specialize (Hnws Hend).
      destruct (textLoop _ _ _ _) as [e|msg] eqn:Hloop; [|discriminate].
      injection H as <- <-.
      pose proof (textLoop_ge _ _ _ _ _ Hloop) as Hge'.
      pose proof (textLoop_le _ _ _ _ _ Hle Hloop) as Hle'.
      destruct (textLoop_sound _ _ _ _ _ (Nat.le_refl _) Hloop)
        as (_ & q' & Hscan & Hends).
      split; [exact I|].
      eexists [_]. cbn [tokens append set_pos]. rewrite Htok.
      split; [reflexivity|].
      repeat constructor. unfold token_wf; cbn [Typ Text Pos].
      exists e, q'. repeat split; auto; lia.
  - (* tokForm *)
    unfold tokForm in H. injection H as <- <-.
    unfold state_ok in Hok. cbv zeta in Hok.
    split.
    { unfold state_ok. cbn [pos bs set_pos append].
      replace (pos t + 1 - 1) with (pos t) by lia. split; [lia|exact Hok]. }
    apply Z.eqb_eq in Hok.
    eexists [_]. split; [reflexivity|].
    repeat constructor; cbn [Pos]; auto.
  - (* tokNilOrAtom *)
    unfold tokNilOrAtom in H; cbv zeta in H; rewrite Hbs in H.
    destruct (len (bs t) <=? pos (skipWhitespace t)) eqn:Hend.
    + injection H as <- <-. apply Nat.leb_le in Hend. split.
      * unfold state_ok. now rewrite Hbs.
      * exists []. rewrite Htok, app_nil_r. split; [reflexivity|constructor].
    + apply Nat.leb_gt in Hend. specialize (Hnws Hend).
      destruct (index (bs t) (pos (skipWhitespace t)) =? Rune.lparen)%Z
        eqn:El; [discriminate|].
      destruct (index (bs t) (pos (skipWhitespace t)) =? Rune.rparen)%Z
        eqn:Er; injection H as <- <-; (split;
          [ unfold state_ok; rewrite Hbs; auto
          | exists []; rewrite Htok, app_nil_r;
            split; [reflexivity|constructor] ]).
  - (* tokNil *)
    unfold tokNil in H. injection H as <- <-. split; [exact I|].
    unfold state_ok in Hok. apply Z.eqb_eq in Hok.
    eexists [_]. split; [reflexivity|].
    repeat constructor; cbn [Pos]; auto.
  - (* tokAtom *)
    unfold tokAtom in H; cbv zeta in H. injection H as <- <-.
    split; [exact I|].
    eexists [_]. split; [reflexivity|].
    repeat constructor. unfold token_wf; simpl.
    rewrite atomLoop_advanceWhile.
    eexists. split; [|split; [reflexivity|split]].
    + split; [apply advanceWhile_ge | apply advanceWhile_le; lia].
    + apply advanceWhile_all.
    + apply advanceWhile_exit; lia.
  - (* tokNilOrTextOrForm *)
    unfold tokNilOrTextOrForm in H; cbv zeta in H; rewrite Hbs in H.
    destruct (len (bs t) <=? pos (skipWhitespace t)) eqn:Hend.
    + injection H as <- <-. apply Nat.leb_le in Hend. split.
      * unfold state_ok. now rewrite Hbs.
      * exists []. rewrite Htok, app_nil_r. split; [reflexivity|constructor].
    + apply Nat.leb_gt in Hend. specialize (Hnws Hend).
      destruct (index (bs t) (pos (skipWhitespace t)) =? Rune.rparen)%Z
        eqn:Er;
        [|destruct (index (bs t) (pos (skipWhitespace t)) =? Rune.lparen)%Z
            eqn:El];
        injection H as <- <-; (split;
          [ unfold state_ok; rewrite Hbs; auto
          | exists []; rewrite Htok, app_nil_r;
            split; [reflexivity|constructor] ]).
  - (* tokEOF: not called with the cursor inside the input *)
    unfold state_ok in Hok. lia.
Qed.

Lemma state_ok_set_state :
  forall f t g, state_ok f (set_state t g) <-> state_ok f t.
Proof. intros f t g; reflexivity. Qed.

Lemma loop_wf :
  forall fuel t toks e,
    state_ok (state t) t ->
    Forall (token_wf (bs t)) (tokens t) ->
    loop fuel (len (bs t)) t = Returned toks e ->
    Forall (token_wf (bs t)) toks.
Proof.
  induction fuel as [|fuel IH]; intros t toks e Hst Hall H; simpl in H.
  - destruct (state t); [destruct (pos t <? len (bs t)); [discriminate|]|];
      injection H as <- <-; exact Hall.
  - destruct (state t) as [f|] eqn:Hf; [|injection H as <- <-; exact Hall].
    destruct (pos t <? len (bs t)) eqn:Hlt;
      [|injection H as <- <-; exact Hall].
    apply Nat.ltb_lt in Hlt.
    destruct (call f t) as [[f' t']|msg] eqn:Hcall; [|discriminate].
    destruct (call_transition _ _ _ _ Hlt Hcall) as (Hbs & _).
    destruct (call_wf _ _ _ _ Hlt Hst Hcall) as (Hst' & new & Htok & Hnew).
    rewrite <- Hbs. apply (IH (set_state t' f') toks e).
    + exact Hst'.
    + simpl. rewrite Htok, Hbs. apply Forall_app; split; assumption.
    + simpl. rewrite Hbs. exact H.
Qed.

Lemma tokenize_wf :
  forall input toks e,
    tokenize input = Returned toks e -> Forall (token_wf input) toks.
Proof.
  intros input toks e H.
  unfold tokenize, Tokenize, TokenizeFuel in H.
  eapply (loop_wf _ (set_state (NewTokenizer input) (Some FnTextOrForm)));
    [exact I | constructor | exact H].
Qed.

(** ** What makes [Tokenize] panic *)

Lemma textLoop_panic :
  forall fuel s e q msg,
    textLoop fuel s e q = Panic msg ->
    msg = "invalid escape character"
    /\ exists i,
        e <= i < len s
        /\ index s i = Rune.backslash
        /\ escapable (skipn (i + 1) s) = false.
Proof.
  induction fuel as [|fuel IH]; intros s e q msg H; simpl in H;
    [discriminate|].
  destruct (e <? len s) eqn:Hlt; simpl in H; [|discriminate].
  apply Nat.ltb_lt in Hlt.
  destruct (_ || q); [|discriminate].
  assert (Hrec : forall e1 q1,
             e < e1 -> textLoop fuel s e1 q1 = Panic msg ->
             msg = "invalid escape character"
             /\ exists i, e <= i < len s /\ index s i = Rune.backslash
                          /\ escapable (skipn (i + 1) s) = false).
  { intros e1 q1 He1 H1. apply IH in H1 as (Hm & i & Hi & Hb & Hesc).
    split; [exact Hm|]. exists i. repeat split; auto; lia. }
  destruct (index s e =? Rune.backslash)%Z eqn:Hb;
    [|apply Hrec in H; auto; lia].
  destruct ((e + 1 <? len s) && _) eqn:H1 in H;
    [apply Hrec in H; auto; lia|].
  destruct ((e + 1 <? len s) && _) eqn:H2 in H;
    [apply Hrec in H; auto; lia|].
  injection H as <-. split; [reflexivity|].
  exists e. split; [lia|]. split; [now apply Z.eqb_eq|].
  destruct (skipn (e + 1) s) as [|c rest] eqn:Hsk; [reflexivity|].
  assert (Hlt1 : e + 1 < len s).
  { destruct (Nat.lt_ge_cases (e + 1) (len s)) as [Hl|Hg]; [exact Hl|].
    rewrite skipn_all2 in Hsk by lia. discriminate. }
  assert (Hc : index s (e + 1) = c).
  { unfold index. rewrite <- (firstn_skipn (e + 1) s) at 1.
    rewrite app_nth2 by (rewrite length_firstn; lia).
    rewrite length_firstn, Hsk.
    replace (e + 1 - Nat.min (e + 1) (len s)) with 0 by lia. reflexivity. }
  apply Nat.ltb_lt in Hlt1. rewrite Hlt1, Hc in H1, H2. simpl in H1, H2.
  simpl. now rewrite H1, H2.
Qed.

Lemma call_panic :
  forall f t msg,
    pos t < len (bs t) ->
    state_ok (Some f) t ->
    call f t = Panic msg ->
    panic_cause (bs t) msg.
Proof.
  intros f t msg Hlt Hok H.
  destruct (skipWhitespace_spec t) as (Hbs & _ & _ & Hge & _).
  destruct f; simpl in H; try discriminate.
  - unfold tokTextOrForm in H; cbv zeta in H.
    repeat match type of H with
           | (if ?c then _ else _) = _ => destruct c
           end; discriminate.
  - (* tokText *)
    unfold tokText in H; cbv zeta in H; rewrite Hbs in H.
    destruct (len (bs t) <=? pos (skipWhitespace t)); [discriminate|].
    destruct (textLoop _ _ _ _) as [e|m] eqn:Hloop; [discriminate|].
    injection H as ->.
    apply textLoop_panic in Hloop as (-> & i & Hi & Hb & Hesc).
    left. split; [reflexivity|]. exists i. repeat split; auto; lia.
  - (* tokNilOrAtom *)
    unfold tokNilOrAtom in H; cbv zeta in H; rewrite Hbs in H.
    destruct (len (bs t) <=? pos (skipWhitespace t)) eqn:Hend;
      [discriminate|].
    apply Nat.leb_gt in Hend.
    destruct (index (bs t) (pos (skipWhitespace t)) =? Rune.lparen)%Z
      eqn:El.
    + injection H as <-. right. split; [reflexivity|].
      destruct Hok as [Hp Hprev]. cbv zeta in Hprev.
      exists (pos t - 1), (pos (skipWhitespace t)).
      split; [lia|]. split; [now apply Z.eqb_eq|].
      split; [now apply Z.eqb_eq|].
      intros i Hi.
      apply (advanceWhile_all isWhitespace (len (bs t) - pos t) (bs t) (pos t)).
      rewrite <- skipLoop_advanceWhile.
      change (skipLoop (len (bs t) - pos t) (bs t) (pos t))
        with (pos (skipWhitespace t)).
      lia.
    + destruct (_ =? Rune.rparen)%Z; discriminate.
  - unfold tokNilOrTextOrForm in H; cbv zeta in H.
    repeat match type of H with
           | (if ?c then _ else _) = _ => destruct c
           end; discriminate.
Qed.

Lemma loop_panic :
  forall fuel t msg,
    state_ok (state t) t ->
    loop fuel (len (bs t)) t = Panicked msg ->
    panic_cause (bs t) msg.
Proof.
  induction fuel as [|fuel IH]; intros t msg Hst H; simpl in H.
  - destruct (state t); [destruct (pos t <? len (bs t))|]; discriminate.
  - destruct (state t) as [f|] eqn:Hf; [|discriminate].
    destruct (pos t <? len (bs t)) eqn:Hlt; [|discriminate].
    apply Nat.ltb_lt in Hlt.
    destruct (call f t) as [[f' t']|m] eqn:Hcall.
    + destruct (call_transition _ _ _ _ Hlt Hcall) as (Hbs & _).
      destruct (call_wf _ _ _ _ Hlt Hst Hcall) as (Hst' & _).
      rewrite <- Hbs. apply (IH (set_state t' f')); [exact Hst'|].
      simpl. rewrite Hbs. exact H.
    + injection H as <-. now apply (call_panic f).
Qed.

Lemma tokenize_panic :
  forall input msg,
    tokenize input = Panicked msg -> panic_cause input msg.
Proof.
  intros input msg H.
  unfold tokenize, Tokenize, TokenizeFuel in H.
  eapply (loop_panic _ (set_state (NewTokenizer input) (Some FnTextOrForm)));
    [exact I | exact H].
Qed.

(** An input of whitespace only: the first transition takes the cursor to
    the end and nothing is emitted. *)
Lemma whitespace_run :
  forall ws fuel,
    forallb isWhitespace ws = true ->
    TokenizeFuel (S fuel) (NewTokenizer ws) = Returned [] None.
Proof.
  intros ws fuel Hws. unfold TokenizeFuel; proj.
  destruct ws as [|w ws']; [reflexivity|].
  set (s := w :: ws') in *.
  rewrite (loop_step _ _ _ FnTextOrForm) by (proj; simpl; auto; lia).
  cbn [call]. unfold tokTextOrForm.
  rewrite (skipWhitespace_run _ (len s)); proj; try lia.
  2:{ intros i Hi. apply forallb_nth; [exact Hws|lia]. }
  rewrite Nat.leb_refl.
  destruct fuel; simpl; now rewrite Nat.ltb_irrefl.
Qed.

(** ** The scan of [tokText] and the text it covers *)

Lemma textLoop_scanText :
  forall n txt pre rest q q' fuel,
    len txt <= n ->
    scanText q txt = Some q' ->
    scanEnds q' rest = true ->
    len txt + len rest <= fuel ->
    textLoop fuel (pre ++ txt ++ rest) (len pre) q = Ok (len pre + len txt).
Proof.
  induction n as [|n IH]; intros txt pre rest q q' fuel Hn Hscan Hend Hf.
  - destruct txt; [|simpl in Hn; lia]. simpl in Hscan. injection Hscan as ->.
    simpl. rewrite Nat.add_0_r.
    destruct fuel as [|fuel]; [reflexivity|]. simpl.
    destruct rest as [|c rest'].
    + rewrite app_nil_r, Nat.ltb_irrefl. reflexivity.
    + rewrite index_app_mid. simpl in Hend.
      destruct q'; simpl in Hend; [discriminate|].
      apply orb_true_iff in Hend as [->| ->];
        simpl; rewrite ?andb_false_r; reflexivity.
  - destruct txt as [|c txt1].
    { apply (IH [] pre rest q q' fuel); auto. simpl; lia. }
    simpl in Hn, Hf.
    destruct fuel as [|fuel]; [lia|].
    assert (Hlen : len pre < len (pre ++ (c :: txt1) ++ rest)).
    { rewrite !length_app; simpl; lia. }
    assert (Hc : index (pre ++ (c :: txt1) ++ rest) (len pre) = c)
      by apply index_app_mid.
    cbn [textLoop]. apply Nat.ltb_lt in Hlen. rewrite Hlen, Hc.
    simpl in Hscan.
    destruct (c =? Rune.backslash)%Z eqn:Hb.
    + apply Z.eqb_eq in Hb. subst c.
      cbn [Z.eqb Rune.backslash Rune.rparen Rune.lparen Pos.eqb
           negb andb orb].
      destruct txt1 as [|d txt2]; [discriminate|].
      simpl in Hn, Hf.
      assert (Hs : pre ++ (Rune.backslash :: d :: txt2) ++ rest
                   = (pre ++ [Rune.backslash; d]) ++ txt2 ++ rest).
      { rewrite <- app_assoc. reflexivity. }
      assert (Hl2 : len pre + 1 + 1 = len (pre ++ [Rune.backslash; d])).
      { rewrite length_app; simpl; lia. }
      assert (Hd : index (pre ++ (Rune.backslash :: d :: txt2) ++ rest)
                     (len pre + 1) = d).
      { change (pre ++ (Rune.backslash :: d :: txt2) ++ rest)
          with (pre ++ [Rune.backslash] ++ d :: txt2 ++ rest).
        rewrite app_assoc.
        replace (len pre + 1) with (len (pre ++ [Rune.backslash]))
          by (rewrite length_app; simpl; lia).
        apply index_app_mid. }
      assert (Hlt1 : (len pre + 1
                      <? len (pre ++ (Rune.backslash :: d :: txt2) ++ rest))
                     = true).
      { apply Nat.ltb_lt. rewrite !length_app; simpl; lia. }
      rewrite Hlt1, Hd. cbn [andb].
      destruct ((d =? Rune.lparen)%Z || (d =? Rune.rparen)%Z
                || (d =? Rune.backslash)%Z).
      * rewrite Hs, Hl2.
        rewrite (IH txt2 _ rest q q' fuel); auto; try lia.
        f_equal. rewrite length_app; simpl; lia.
      * destruct (d =? Rune.plus)%Z; [|discriminate].
        rewrite Hs, Hl2.
        rewrite (IH txt2 _ rest (negb q) q' fuel); auto; try lia.
        f_equal. rewrite length_app; simpl; lia.
    + destruct ((negb (c =? Rune.rparen)%Z && negb (c =? Rune.lparen)%Z)
                || q); [|discriminate].
      cbn [andb].
      assert (Hs : pre ++ (c :: txt1) ++ rest = (pre ++ [c]) ++ txt1 ++ rest).
      { rewrite <- app_assoc. reflexivity. }
      assert (Hl1 : len pre + 1 = len (pre ++ [c])).
      { rewrite length_app; simpl; lia. }
      rewrite Hs, Hl1.
      rewrite (IH txt1 _ rest q q' fuel); auto; try lia.
      f_equal. rewrite length_app; simpl; lia.
Qed.

Lemma loop_done :
  forall fuel l t, l <= pos t -> loop fuel l t = Returned (tokens t) None.
Proof.
  intros fuel l t Hl.
  assert (Hlt : (pos t <? l) = false) by (apply Nat.ltb_ge; exact Hl).
  destruct fuel; simpl; destruct (state t); rewrite ?Hlt; reflexivity.
Qed.

Lemma slice_all : forall s, slice s 0 (len s) = s.
Proof.
  intros s. unfold slice. rewrite Nat.sub_0_r. simpl. apply firstn_all.
Qed.

Lemma scanText_first :
  forall c txt q',
    scanText false (c :: txt) = Some q' -> (c =? Rune.lparen)%Z = false.
Proof.
  intros c txt q' H. simpl in H.
  destruct (c =? Rune.backslash)%Z eqn:Hb.
  - apply Z.eqb_eq in Hb. subst c. reflexivity.
  - destruct (c =? Rune.lparen)%Z; [|reflexivity].
    rewrite andb_false_r in H. discriminate.
Qed.

(** Input that is text from its first rune to its end: one [Text] token. *)
Lemma text_run :
  forall c txt q' fuel,
    scanText false (c :: txt) = Some q' ->
    isWhitespace c = false ->
    TokenizeFuel (S (S fuel)) (NewTokenizer (c :: txt))
    = Returned [ {| Typ := TypeText; Text := Rune.to_string (c :: txt);
                    Pos := 0 |} ] None.
Proof.
  intros c txt q' fuel Hscan Hws.
  set (s := c :: txt) in *.
  pose proof (scanText_first _ _ _ Hscan) as Hnl.
  assert (Hloop : textLoop (len s - 0) s 0 false = Ok (len s)).
  { pose proof (textLoop_scanText (len s) s [] [] false q' (len s - 0)
                  (Nat.le_refl _) Hscan eq_refl) as H.
    simpl app in H. rewrite app_nil_r in H. apply H. simpl; lia. }
  unfold TokenizeFuel; proj.
  (* tokTextOrForm *)
  rewrite (loop_step _ _ _ FnTextOrForm) by (proj; simpl; auto; lia).
  cbn [call]. unfold tokTextOrForm.
  rewrite (skipWhitespace_run _ 0); proj; try (simpl; lia).
  2:{ intros _. exact Hws. }
  replace (len s <=? 0) with false by reflexivity.
  change (index s 0) with c. rewrite Hnl. proj.
  (* tokText *)
  rewrite (loop_step _ _ _ FnText) by (proj; simpl; auto; lia).
  cbn [call]. unfold tokText.
  rewrite (skipWhitespace_run _ 0); proj; try (simpl; lia).
  2:{ intros _. exact Hws. }
  replace (len s <=? 0) with false by reflexivity.
  rewrite Hloop. proj.
  rewrite loop_done by (proj; lia). proj.
  now rewrite slice_all.
Qed.

(** ** The run behind a prefix *)

Lemma index_shift :
  forall (pre s : list rune) i, index (pre ++ s) (len pre + i) = index s i.
Proof.
  intros pre s i. unfold index. rewrite app_nth2 by lia.
  f_equal. lia.
Qed.

Lemma ltb_shift : forall n a b, (n + a <? n + b) = (a <? b).
Proof.
  intros n a b. destruct (a <? b) eqn:H.
  - apply Nat.ltb_lt in H. apply Nat.ltb_lt. lia.
  - apply Nat.ltb_ge in H. apply Nat.ltb_ge. lia.
Qed.

Lemma leb_shift : forall n a b, (n + a <=? n + b) = (a <=? b).
Proof.
  intros n a b. destruct (a <=? b) eqn:H.
  - apply Nat.leb_le in H. apply Nat.leb_le. lia.
  - apply Nat.leb_gt in H. apply Nat.leb_gt. lia.
Qed.

Lemma advanceWhile_shift :
  forall P fuel (pre s : list rune) p,
    advanceWhile P fuel (pre ++ s) (len pre + p)
    = len pre + advanceWhile P fuel s p.
Proof.
  intros P. induction fuel as [|fuel IH]; intros pre s p; simpl;
    [reflexivity|].
  rewrite length_app, ltb_shift, index_shift.
  destruct ((p <? len s) && P (index s p)); [|reflexivity].
  rewrite <- Nat.add_assoc. apply IH.
Qed.

Lemma textLoop_shift :
  forall fuel (pre s : list rune) e q,
    textLoop fuel (pre ++ s) (len pre + e) q
    = match textLoop fuel s e q with
      | Ok e' => Ok (len pre + e')
      | Panic msg => Panic msg
      end.
Proof.
  induction fuel as [|fuel IH]; intros pre s e q; simpl; [reflexivity|].
  rewrite length_app, ltb_shift, index_shift.
  destruct ((e <? len s) && _); [|reflexivity].
  rewrite <- !Nat.add_assoc, ltb_shift, index_shift, !IH.
  repeat match goal with |- context [if ?c then _ else _] => destruct c end;
    reflexivity.
Qed.

Lemma slice_shift :
  forall (pre s : list rune) lo hi,
    slice (pre ++ s) (len pre + lo) (len pre + hi) = slice s lo hi.
Proof.
  intros pre s lo hi. unfold slice.
  replace (len pre + hi - (len pre + lo)) with (hi - lo) by lia.
  f_equal. rewrite skipn_app.
  rewrite skipn_all2 by lia. simpl. f_equal. lia.
Qed.

Lemma skipWhitespace_shift :
  forall pre base t,
    skipWhitespace (shiftTokenizer pre base t)
    = shiftTokenizer pre base (skipWhitespace t).
Proof.
  intros pre base t. unfold skipWhitespace, shiftTokenizer, set_pos; simpl.
  f_equal. rewrite !skipLoop_advanceWhile, length_app.
  replace (len pre + len (bs t) - (len pre + pos t))
    with (len (bs t) - pos t) by lia.
  apply advanceWhile_shift.
Qed.

(** A method behaves behind a prefix as it does without it. *)
Lemma call_shift :
  forall f pre base t,
    call f (shiftTokenizer pre base t)
    = match call f t with
      | Ok (f', t') => Ok (f', shiftTokenizer pre base t')
      | Panic msg => Panic msg
      end.
Proof.
  intros f pre base t.
  assert (Happ : forall t0 k,
             append (shiftTokenizer pre base t0) [shiftToken (len pre) k]
             = shiftTokenizer pre base (append t0 [k])).
  { intros t0 k. unfold append, shiftTokenizer; simpl.
    now rewrite map_app, app_assoc. }
  assert (Hpos : forall t0 p,
             set_pos (shiftTokenizer pre base t0) (len pre + p)
             = shiftTokenizer pre base (set_pos t0 p)) by reflexivity.
  destruct f; simpl.
  - unfold tokTextOrForm. rewrite skipWhitespace_shift.
    cbn [bs pos shiftTokenizer].
    rewrite length_app, leb_shift, index_shift.
    repeat match goal with |- context [if ?c then _ else _] => destruct c end;
      reflexivity.
  - unfold tokText. rewrite skipWhitespace_shift.
    cbn [bs pos shiftTokenizer].
    rewrite length_app, leb_shift.
    destruct (len (bs (skipWhitespace t)) <=? pos (skipWhitespace t));
      [reflexivity|].
    replace (len pre + len (bs (skipWhitespace t))
             - (len pre + pos (skipWhitespace t)))
      with (len (bs (skipWhitespace t)) - pos (skipWhitespace t)) by lia.
    rewrite textLoop_shift.
    destruct (textLoop _ _ _ _) as [e|msg]; [|reflexivity].
    rewrite slice_shift.
    change {| Typ := TypeText;
              Text := Rune.to_string
                        (slice (bs (skipWhitespace t))
                           (pos (skipWhitespace t)) e);
              Pos := len pre + pos (skipWhitespace t) |}
      with (shiftToken (len pre)
              {| Typ := TypeText;
                 Text := Rune.to_string
                           (slice (bs (skipWhitespace t))
                              (pos (skipWhitespace t)) e);
                 Pos := pos (skipWhitespace t) |}).
    now rewrite Happ, Hpos.
  - unfold tokForm. cbn [bs pos shiftTokenizer].
    change {| Typ := TypeFormStart; Text := "("; Pos := len pre + pos t |}
      with (shiftToken (len pre)
              {| Typ := TypeFormStart; Text := "("; Pos := pos t |}).
    rewrite Happ. cbn [pos append shiftTokenizer].
    now rewrite <- Nat.add_assoc, Hpos.
  - unfold tokNilOrAtom. rewrite skipWhitespace_shift.
    cbn [bs pos shiftTokenizer].
    rewrite length_app, leb_shift, index_shift.
    repeat match goal with |- context [if ?c then _ else _] => destruct c end;
      reflexivity.
  - unfold tokNil. cbn [bs pos shiftTokenizer].
    change {| Typ := TypeFormEnd; Text := ")"; Pos := len pre + pos t |}
      with (shiftToken (len pre)
              {| Typ := TypeFormEnd; Text := ")"; Pos := pos t |}).
    rewrite Happ. cbn [pos append shiftTokenizer].
    now rewrite <- Nat.add_assoc, Hpos.
  - unfold tokAtom. cbn [bs pos shiftTokenizer].
    rewrite !atomLoop_advanceWhile, length_app.
    replace (len pre + len (bs t) - (len pre + pos t))
      with (len (bs t) - pos t) by lia.
    rewrite advanceWhile_shift, slice_shift.
    set (e := advanceWhile isAlphaNum (len (bs t) - pos t) (bs t) (pos t)).
    change {| Typ := TypeAtom;
              Text := Rune.to_string (slice (bs t) (pos t) e);
              Pos := len pre + pos t |}
      with (shiftToken (len pre)
              {| Typ := TypeAtom;
                 Text := Rune.to_string (slice (bs t) (pos t) e);
                 Pos := pos t |}).
    now rewrite Happ, Hpos.
  - unfold tokNilOrTextOrForm. rewrite skipWhitespace_shift.
    cbn [bs pos shiftTokenizer].
    rewrite length_app, leb_shift, index_shift.
    repeat match goal with |- context [if ?c then _ else _] => destruct c end;
      reflexivity.
  - unfold tokEOF. cbn [bs pos shiftTokenizer].
    f_equal. f_equal. unfold append, shiftTokenizer; simpl.
    now rewrite map_app, app_assoc.
Qed.

Lemma loop_shift :
  forall fuel pre base l t,
    loop fuel (len pre + l) (shiftTokenizer pre base t)
    = match loop fuel l t with
      | Returned toks err =>
          Returned (base ++ map (shiftToken (len pre)) toks) err
      | Panicked msg => Panicked msg
      | OutOfFuel => OutOfFuel
      end.
Proof.
  induction fuel as [|fuel IH]; intros pre base l t; simpl;
    rewrite ltb_shift.
  - destruct (state t); [destruct (pos t <? l)|]; reflexivity.
  - destruct (state t) as [f|]; [|reflexivity].
    destruct (pos t <? l); [|reflexivity].
    rewrite call_shift.
    destruct (call f t) as [[f' t']|msg]; [|reflexivity].
    apply (IH pre base l (set_state t' f')).
Qed.

Lemma advanceWhile_prefix :
  forall P (ws s : list rune),
    forallb P ws = true ->
    advanceWhile P (len (ws ++ s) - 0) (ws ++ s) 0
    = len ws + advanceWhile P (len s - 0) s 0.
Proof.
  intros P ws s Hws.
  set (k := advanceWhile P (len s - 0) s 0).
  assert (Hk : k <= len s) by (apply advanceWhile_le; lia).
  apply advanceWhile_run.
  - rewrite length_app; lia.
  - rewrite length_app; lia.
  - intros i Hi.
    destruct (Nat.lt_ge_cases i (len ws)) as [Hlt|Hge].
    + rewrite index_app_l by lia. now apply forallb_nth.
    + replace i with (len ws + (i - len ws)) by lia.
      rewrite index_shift.
      apply (advanceWhile_all P (len s - 0) s 0). fold k. lia.
  - intros Hlt. rewrite length_app in Hlt. rewrite index_shift.
    pose proof (advanceWhile_exit P (len s - 0) s 0 ltac:(lia)) as Hex.
    fold k in Hex.
    replace (k <? len s) with true in Hex
      by (symmetry; apply Nat.ltb_lt; lia).
    exact Hex.
Qed.

(** Whitespace in front of the input moves the positions and changes
    nothing else. *)
Lemma leading_whitespace_run :
  forall ws s,
    forallb isWhitespace ws = true ->
    tokenize (ws ++ s) = shiftOutcome (len ws) (tokenize s).
Proof.
  intros ws s Hws.
  destruct s as [|c s'].
  { rewrite app_nil_r. unfold tokenize, Tokenize.
    rewrite Nat.add_1_r, whitespace_run by exact Hws. reflexivity. }
  set (s := c :: s') in *.
  set (t0 := set_state (NewTokenizer s) (Some FnTextOrForm)).
  set (T0 := set_state (NewTokenizer (ws ++ s)) (Some FnTextOrForm)).
  assert (Hskip : skipWhitespace T0 = shiftTokenizer ws [] (skipWhitespace t0)).
  { unfold skipWhitespace, shiftTokenizer, set_pos, T0, t0; simpl.
    f_equal. rewrite !skipLoop_advanceWhile.
    now apply advanceWhile_prefix. }
  assert (Hcall : call FnTextOrForm T0
                  = match call FnTextOrForm t0 with
                    | Ok (f', t') => Ok (f', shiftTokenizer ws [] t')
                    | Panic msg => Panic msg
                    end).
  { simpl. unfold tokTextOrForm. rewrite Hskip.
    cbn [bs pos shiftTokenizer].
    rewrite length_app, leb_shift, index_shift.
    repeat match goal with |- context [if ?c then _ else _] => destruct c end;
      reflexivity. }
  (* the run on [s], with the fuel of the run on [ws ++ s] *)
  assert (Hfuel : tokenize s = loop (3 * len (ws ++ s) + 1) (len s) t0).
  { symmetry. unfold tokenize, Tokenize, TokenizeFuel.
    apply loop_more_fuel.
    - apply (Tokenize_halts (NewTokenizer s)).
    - proj. rewrite length_app. lia. }
  rewrite Hfuel.
  unfold tokenize, Tokenize, TokenizeFuel. proj. fold T0.
  rewrite Nat.sub_0_r, Nat.add_1_r.
  rewrite (loop_step _ _ T0 FnTextOrForm)
    by (auto; unfold T0; proj; rewrite length_app; simpl; lia).
  rewrite (loop_step _ _ t0 FnTextOrForm) by (auto; simpl; lia).
  rewrite Hcall.
  destruct (call FnTextOrForm t0) as [[f' t']|msg]; [|reflexivity].
  rewrite length_app.
  change (set_state (shiftTokenizer ws [] t') f')
    with (shiftTokenizer ws [] (set_state t' f')).
  rewrite loop_shift.
  destruct (loop _ _ _); reflexivity.
Qed.

(** ** Rendering *)

Lemma printable_app :
  forall a b, printable (a ++ b) = printable a && printable b.
Proof.
  induction a as [|c a IH]; intros b; simpl; [reflexivity|].
  now rewrite IH, andb_assoc.
Qed.

Lemma nat_of_byte :
  forall z, (0 <= z < 256)%Z -> nat_of_ascii (Rune.byte z) = Z.to_nat z.
Proof.
  intros z Hz. unfold Rune.byte, nat_of_ascii.
  rewrite N_ascii_embedding by lia. lia.
Qed.

Lemma byte_of_ascii :
  forall a, Rune.byte (Z.of_N (N_of_ascii a)) = a.
Proof.
  intros a. unfold Rune.byte. rewrite N2Z.id. apply ascii_N_embedding.
Qed.

Lemma printable_byte :
  forall z, (32 <= z <= 126)%Z -> printable (String (Rune.byte z) "") = true.
Proof.
  intros z Hz. cbn [printable]. rewrite nat_of_byte by lia.
  rewrite andb_true_r. apply andb_true_iff; split; apply Nat.leb_le; lia.
Qed.

Lemma printable_hexDigit :
  forall d, (0 <= d < 16)%Z -> printable (String (hexDigit d) "") = true.
Proof.
  intros d Hd. unfold hexDigit.
  destruct (d <? 10)%Z eqn:H10.
  - apply Z.ltb_lt in H10. apply printable_byte. lia.
  - apply Z.ltb_ge in H10. apply printable_byte. lia.
Qed.

Lemma printable_cons :
  forall a s,
    printable (String a s) = printable (String a "") && printable s.
Proof. intros a s. cbn [printable]. now rewrite andb_true_r. Qed.

Lemma printable_hexDigits :
  forall fuel u acc,
    printable acc = true -> printable (hexDigits fuel u acc) = true.
Proof.
  induction fuel as [|fuel IH]; intros u acc Hacc; simpl; [exact Hacc|].
  assert (Hd : printable (String (hexDigit (u mod 16)%Z) acc) = true).
  { rewrite printable_cons, Hacc, andb_true_r.
    apply printable_hexDigit. apply Z.mod_pos_bound. lia. }
  destruct (u <? 16)%Z; [exact Hd|]. now apply IH.
Qed.

Lemma printable_padZeros :
  forall n s, printable s = true -> printable (padZeros n s) = true.
Proof.
  induction n as [|n IH]; intros s Hs; simpl; [exact Hs|].
  apply IH. simpl. exact Hs.
Qed.

Lemma printable_formatU : forall r, printable (formatU r) = true.
Proof.
  intros r. unfold formatU. cbv zeta.
  rewrite printable_app. simpl (printable "U+").
  apply printable_padZeros, printable_hexDigits. reflexivity.
Qed.



Lemma encode_ascii :
  forall z, (0 <= z < 128)%Z -> Rune.encode z = String (Rune.byte z) "".
Proof.
  intros z Hz. unfold Rune.encode.
  replace (z <? 0)%Z with false by (symmetry; apply Z.ltb_ge; lia).
  replace (1114111 <? z)%Z with false by (symmetry; apply Z.ltb_ge; lia).
  replace (55296 <=? z)%Z with false by (symmetry; apply Z.leb_gt; lia).
  replace (z <? 128)%Z with true by (symmetry; apply Z.ltb_lt; lia).
  reflexivity.
Qed.

(** The body of the loop never panics and appends printable text. *)
Lemma visibleRune_printable :
  forall r, exists w, visibleRune r = Ok w /\ printable w = true.
Proof.
  intros r. unfold visibleRune.
  destruct ((32 <=? r) && (r <=? 126))%Z eqn:Hp.
  { apply andb_true_iff in Hp as [H1 H2].
    apply Z.leb_le in H1, H2.
    eexists; split; [reflexivity|].
    rewrite (encode_ascii r) by lia. apply printable_byte. lia. }
  destruct (r =? 127)%Z; [eexists; split; reflexivity|].
  destruct ((0 <=? r) && (r <=? 31))%Z eqn:Hc.
  { apply andb_true_iff in Hc as [H1 H2].
    apply Z.leb_le in H1, H2.
    assert (Hn : Z.to_nat r < 32) by lia.
    revert Hn. generalize (Z.to_nat r) as n. intros n Hn.
    do 32 (destruct n as [|n]; [eexists; split; reflexivity|]). lia. }
  eexists; split; [reflexivity|].
  rewrite !printable_app, printable_formatU. reflexivity.
Qed.

Lemma visibleLoop_printable :
  forall rs v,
    printable v = true ->
    exists w, visibleLoop rs v = Ok w /\ printable w = true.
Proof.
  induction rs as [|r rs IH]; intros v Hv; simpl.
  - now exists v.
  - destruct (visibleRune_printable r) as (w & -> & Hw).
    apply IH. now rewrite printable_app, Hv, Hw.
Qed.

Lemma visibleString_printable :
  forall s, exists v, visibleString s = Ok v /\ printable v = true.
Proof.
  intros s. unfold visibleString. now apply visibleLoop_printable.
Qed.

(** Printable text is rendered as it is. *)
Lemma append_nil_r : forall v : string, (v ++ "")%string = v.
Proof. induction v; simpl; congruence. Qed.

Lemma append_cons_r :
  forall (v : string) a s,
    ((v ++ String a "") ++ s)%string = (v ++ String a s)%string.
Proof. induction v; intros; simpl; congruence. Qed.

Lemma visibleLoop_id :
  forall s v,
    printable s = true ->
    visibleLoop (decodeRunes (bytesOf s)) v = Ok (v ++ s)%string.
Proof.
  induction s as [|a s IH]; intros v Hs.
  - simpl. now rewrite append_nil_r.
  - cbn [printable] in Hs.
    apply andb_true_iff in Hs as [Ha Hs].
    apply andb_true_iff in Ha as [H1 H2].
    apply Nat.leb_le in H1, H2.
    unfold nat_of_ascii in H1, H2.
    cbn [bytesOf decodeRunes].
    set (z := Z.of_N (N_of_ascii a)) in *.
    assert (Hz : (32 <= z <= 126)%Z) by (unfold z; lia).
    replace (z <? 128)%Z with true by (symmetry; apply Z.ltb_lt; lia).
    cbn [visibleLoop]. unfold visibleRune.
    replace ((32 <=? z) && (z <=? 126))%Z with true
      by (symmetry; apply andb_true_iff; split; apply Z.leb_le; lia).
    rewrite encode_ascii by lia.
    unfold z at 1. rewrite byte_of_ascii.
    rewrite IH by exact Hs.
    now rewrite append_cons_r.
Qed.

Lemma visibleString_id :
  forall s, printable s = true -> visibleString s = Ok s.
Proof.
  intros s Hs. unfold visibleString, runesOf.
  now rewrite visibleLoop_id.
Qed.



(** [String] on a few tokens: a [Text] token of the tokenizer whose text
    holds a line feed, a token at a negative position, and one whose
    [Type] is none of the four constants. *)
Lemma TokenString_examples :
  TokenStringOf {| Typ := TypeText;
                   Text := Rune.to_string [97; 10; 98]%Z;
                   Pos := 3 |}
  = Ok "Text{3: `a\nb`}"
  /\ TokenString 1 "eof" (-12) = Ok "Atom{-12: `eof`}"
  /\ TokenString 3 ")" 0 = Ok "FormEnd{0: `)`}"
  /\ TokenString 4 "x" 0 = Ok "Invalid{~}"
  /\ TokenString (-1) "x" 0 = Ok "Invalid{~}".
Proof.
  repeat split; reflexivity.
Qed.

(** ** Encoding runes and decoding them again *)

Lemma land_pow2_disjoint :
  forall a k x, (0 <= k -> 0 <= x < 2 ^ k -> Z.land (a * 2 ^ k) x = 0)%Z.
Proof.
  intros a k x Hk Hx. apply Z.bits_inj'. intros n Hn.
  rewrite Z.land_spec, Z.bits_0.
  destruct (Z.lt_ge_cases n k) as [Hlt|Hge].
  - now rewrite Z.mul_pow2_bits_low.
  - rewrite andb_comm.
    destruct (Z.eq_dec x 0) as [->|Hx0]; [now rewrite Z.bits_0|].
    rewrite (Z.bits_above_log2 x n); [reflexivity|lia|].
    apply Z.log2_lt_pow2; [lia|].
    apply Z.lt_le_trans with (2 ^ k)%Z; [lia|].
    apply Z.pow_le_mono_r; lia.
Qed.

Lemma lor_pow2_add :
  forall a k x,
    (0 <= k -> 0 <= x < 2 ^ k -> Z.lor (a * 2 ^ k) x = a * 2 ^ k + x)%Z.
Proof.
  intros a k x Hk Hx.
  pose proof (land_pow2_disjoint a k x Hk Hx) as Hd.
  rewrite <- (Z.lxor_lor _ _ Hd). symmetry. now apply Z.add_nocarry_lxor.
Qed.

Lemma land_low :
  forall a k x,
    (0 <= k -> 0 <= x < 2 ^ k -> Z.land (a * 2 ^ k + x) (Z.ones k) = x)%Z.
Proof.
  intros a k x Hk Hx. rewrite Z.land_ones by exact Hk.
  rewrite Z.add_comm, Z.mod_add by lia. apply Z.mod_small. exact Hx.
Qed.

Lemma bytesOf_byte :
  forall z s,
    (0 <= z < 256)%Z -> bytesOf (String (Rune.byte z) s) = z :: bytesOf s.
Proof.
  intros z s Hz. cbn [bytesOf]. unfold Rune.byte.
  rewrite N_ascii_embedding by lia. f_equal. lia.
Qed.

Lemma bytesOf_app :
  forall a b, bytesOf (a ++ b)%string = bytesOf a ++ bytesOf b.
Proof.
  induction a as [|c a IH]; intros b; simpl; [reflexivity|].
  now rewrite IH.
Qed.

(** The bytes of the encoding, in arithmetic. *)
Lemma bytes_encode2 :
  forall r,
    (128 <= r < 2048)%Z ->
    bytesOf (Rune.encode r) = [(192 + r / 64)%Z; (128 + r mod 64)%Z].
Proof.
  intros r Hr. unfold Rune.encode.
  replace (r <? 0)%Z with false by (symmetry; apply Z.ltb_ge; lia).
  replace (1114111 <? r)%Z with false by (symmetry; apply Z.ltb_ge; lia).
  replace (55296 <=? r)%Z with false by (symmetry; apply Z.leb_gt; lia).
  replace (r <? 128)%Z with false by (symmetry; apply Z.ltb_ge; lia).
  replace (r <? 2048)%Z with true by (symmetry; apply Z.ltb_lt; lia).
  cbn [orb andb].
  rewrite (Z.shiftr_div_pow2 r 6) by lia.
  change 63%Z with (Z.ones 6). rewrite (Z.land_ones r 6) by lia.
  change (2 ^ 6)%Z with 64%Z.
  change 192%Z with (6 * 2 ^ 5)%Z at 1.
  change 128%Z with (2 * 2 ^ 6)%Z at 1.
  rewrite !lor_pow2_add by (try lia; change (2 ^ 5)%Z with 32%Z;
                            change (2 ^ 6)%Z with 64%Z; zdm).
  rewrite !bytesOf_byte by (change (2 ^ 5)%Z with 32%Z;
                            change (2 ^ 6)%Z with 64%Z; zdm).
  reflexivity.
Qed.

Lemma bytes_encode3 :
  forall r,
    (2048 <= r < 65536)%Z ->
    (r < 55296 \/ 57343 < r)%Z ->
    bytesOf (Rune.encode r)
    = [(224 + r / 4096)%Z; (128 + (r / 64) mod 64)%Z; (128 + r mod 64)%Z].
Proof.
  intros r Hr Hs. unfold Rune.encode.
  replace ((r <? 0) || (1114111 <? r) || (55296 <=? r) && (r <=? 57343))%Z
    with false by (symmetry; blia).
  replace (r <? 128)%Z with false by (symmetry; blia).
  replace (r <? 2048)%Z with false by (symmetry; blia).
  replace (r <? 65536)%Z with true by (symmetry; blia).
  rewrite (Z.shiftr_div_pow2 r 6), (Z.shiftr_div_pow2 r 12) by lia.
  change 63%Z with (Z.ones 6). rewrite !Z.land_ones by lia.
  change (2 ^ 6)%Z with 64%Z. change (2 ^ 12)%Z with 4096%Z.
  change 224%Z with (14 * 2 ^ 4)%Z at 1.
  change 128%Z with (2 * 2 ^ 6)%Z at 1 2.
  rewrite !lor_pow2_add by (try lia; change (2 ^ 4)%Z with 16%Z;
                            change (2 ^ 6)%Z with 64%Z; zdm).
  rewrite !bytesOf_byte by (change (2 ^ 4)%Z with 16%Z;
                            change (2 ^ 6)%Z with 64%Z; zdm).
  reflexivity.
Qed.

Lemma bytes_encode4 :
  forall r,
    (65536 <= r <= 1114111)%Z ->
    bytesOf (Rune.encode r)
    = [(240 + r / 262144)%Z; (128 + (r / 4096) mod 64)%Z;
       (128 + (r / 64) mod 64)%Z; (128 + r mod 64)%Z].
Proof.
  intros r Hr. unfold Rune.encode.
  replace ((r <? 0) || (1114111 <? r) || (55296 <=? r) && (r <=? 57343))%Z
    with false by (symmetry; blia).
  replace (r <? 128)%Z with false by (symmetry; blia).
  replace (r <? 2048)%Z with false by (symmetry; blia).
  replace (r <? 65536)%Z with false by (symmetry; blia).
  rewrite (Z.shiftr_div_pow2 r 6), (Z.shiftr_div_pow2 r 12),
    (Z.shiftr_div_pow2 r 18) by lia.
  change 63%Z with (Z.ones 6). rewrite !Z.land_ones by lia.
  change (2 ^ 6)%Z with 64%Z. change (2 ^ 12)%Z with 4096%Z.
  change (2 ^ 18)%Z with 262144%Z.
  change 240%Z with (30 * 2 ^ 3)%Z at 1.
  change 128%Z with (2 * 2 ^ 6)%Z at 1 2 3.
  rewrite !lor_pow2_add by (try lia; change (2 ^ 3)%Z with 8%Z;
                            change (2 ^ 6)%Z with 64%Z; zdm).
  rewrite !bytesOf_byte by (change (2 ^ 3)%Z with 8%Z;
                            change (2 ^ 6)%Z with 64%Z; zdm).
  reflexivity.
Qed.

(** Putting the payload bits of the bytes together again. *)
Lemma payload6 :
  forall x, (0 <= x < 64 -> Z.land (128 + x) 63 = x)%Z.
Proof.
  intros x Hx. change 63%Z with (Z.ones 6).
  change 128%Z with (2 * 2 ^ 6)%Z. apply land_low; [lia|].
  change (2 ^ 6)%Z with 64%Z. lia.
Qed.

Lemma join6 :
  forall h l, (0 <= l < 64 -> Z.lor (Z.shiftl h 6) l = h * 64 + l)%Z.
Proof.
  intros h l Hl. rewrite Z.shiftl_mul_pow2 by lia.
  rewrite lor_pow2_add; [reflexivity|lia|]. change (2 ^ 6)%Z with 64%Z. lia.
Qed.

Lemma join12 :
  forall h x, (0 <= x < 4096 -> Z.lor (Z.shiftl h 12) x = h * 4096 + x)%Z.
Proof.
  intros h x Hx. rewrite Z.shiftl_mul_pow2 by lia.
  rewrite lor_pow2_add; [reflexivity|lia|]. change (2 ^ 12)%Z with 4096%Z. lia.
Qed.

Lemma join18 :
  forall h x, (0 <= x < 262144 -> Z.lor (Z.shiftl h 18) x = h * 262144 + x)%Z.
Proof.
  intros h x Hx. rewrite Z.shiftl_mul_pow2 by lia.
  rewrite lor_pow2_add; [reflexivity|lia|].
  change (2 ^ 18)%Z with 262144%Z. lia.
Qed.

Lemma lead5 :
  forall h, (0 <= h < 32 -> Z.land (192 + h) 31 = h)%Z.
Proof.
  intros h Hh. change 31%Z with (Z.ones 5).
  change 192%Z with (6 * 2 ^ 5)%Z. apply land_low; [lia|].
  change (2 ^ 5)%Z with 32%Z. lia.
Qed.

Lemma lead4 :
  forall h, (0 <= h < 16 -> Z.land (224 + h) 15 = h)%Z.
Proof.
  intros h Hh. change 15%Z with (Z.ones 4).
  change 224%Z with (14 * 2 ^ 4)%Z. apply land_low; [lia|].
  change (2 ^ 4)%Z with 16%Z. lia.
Qed.

Lemma lead3 :
  forall h, (0 <= h < 8 -> Z.land (240 + h) 7 = h)%Z.
Proof.
  intros h Hh. change 7%Z with (Z.ones 3).
  change 240%Z with (30 * 2 ^ 3)%Z. apply land_low; [lia|].
  change (2 ^ 3)%Z with 8%Z. lia.
Qed.

Lemma leadByte2 :
  forall h, (2 <= h < 32)%Z -> leadByte (192 + h)%Z = Some (2, 128%Z, 191%Z).
Proof.
  intros h Hh. unfold leadByte.
  replace ((194 <=? 192 + h) && (192 + h <=? 223))%Z with true
    by (symmetry; blia).
  reflexivity.
Qed.

Lemma leadByte3 :
  forall h,
    (0 <= h < 16)%Z ->
    leadByte (224 + h)%Z
    = Some (3, if (h =? 0)%Z then 160%Z else 128%Z,
               if (h =? 13)%Z then 159%Z else 191%Z).
Proof.
  intros h Hh.
  assert (Hn : exists n, h = Z.of_nat n /\ n < 16).
  { exists (Z.to_nat h). lia. }
  destruct Hn as (n & -> & Hn).
  do 16 (destruct n as [|n]; [reflexivity|]). lia.
Qed.

Lemma leadByte4 :
  forall h,
    (0 <= h <= 4)%Z ->
    leadByte (240 + h)%Z
    = Some (4, if (h =? 0)%Z then 144%Z else 128%Z,
               if (h =? 4)%Z then 143%Z else 191%Z).
Proof.
  intros h Hh.
  assert (Hn : exists n, h = Z.of_nat n /\ n < 5).
  { exists (Z.to_nat h). lia. }
  destruct Hn as (n & -> & Hn).
  do 5 (destruct n as [|n]; [reflexivity|]). lia.
Qed.

Lemma decode2 :
  forall h l p,
    (2 <= h < 32)%Z -> (0 <= l < 64)%Z ->
    decodeRunes ((192 + h) :: (128 + l) :: p)%Z
    = (h * 64 + l)%Z :: decodeRunes p.
Proof.
  intros h l p Hh Hl. cbn [decodeRunes].
  replace (192 + h <? 128)%Z with false by (symmetry; blia).
  rewrite leadByte2 by exact Hh.
  replace ((128 + l <? 128) || (191 <? 128 + l))%Z with false
    by (symmetry; blia).
  cbn [Nat.leb].
  now rewrite lead5, payload6, join6 by lia.
Qed.

Lemma decode3 :
  forall h m l p,
    (0 <= h < 16)%Z -> (0 <= m < 64)%Z -> (0 <= l < 64)%Z ->
    (h = 0 -> 32 <= m)%Z -> (h = 13 -> m < 32)%Z ->
    decodeRunes ((224 + h) :: (128 + m) :: (128 + l) :: p)%Z
    = (h * 4096 + m * 64 + l)%Z :: decodeRunes p.
Proof.
  intros h m l p Hh Hm Hl H0 H13. cbn [decodeRunes].
  replace (224 + h <? 128)%Z with false by (symmetry; blia).
  rewrite leadByte3 by exact Hh.
  replace ((128 + m <? (if (h =? 0)%Z then 160 else 128))
           || ((if (h =? 13)%Z then 159 else 191) <? 128 + m))%Z
    with false.
  2:{ symmetry. destruct (h =? 0)%Z eqn:E0; destruct (h =? 13)%Z eqn:E13;
        revert E0 E13; blia. }
  cbn [Nat.leb].
  replace (contByte (128 + l)) with true by (symmetry; unfold contByte; blia).
  cbn [negb].
  rewrite lead4, !payload6 by lia.
  rewrite (Z.shiftl_mul_pow2 m 6) by lia. change (2 ^ 6)%Z with 64%Z.
  rewrite join12 by lia.
  replace (h * 4096 + m * 64)%Z with ((h * 64 + m) * 2 ^ 6)%Z
    by (change (2 ^ 6)%Z with 64%Z; lia).
  rewrite lor_pow2_add by (try lia; change (2 ^ 6)%Z with 64%Z; lia).
  reflexivity.
Qed.

Lemma decode4 :
  forall h m k l p,
    (0 <= h <= 4)%Z -> (0 <= m < 64)%Z -> (0 <= k < 64)%Z ->
    (0 <= l < 64)%Z ->
    (h = 0 -> 16 <= m)%Z -> (h = 4 -> m < 16)%Z ->
    decodeRunes ((240 + h) :: (128 + m) :: (128 + k) :: (128 + l) :: p)%Z
    = (h * 262144 + m * 4096 + k * 64 + l)%Z :: decodeRunes p.
Proof.
  intros h m k l p Hh Hm Hk Hl H0 H4. cbn [decodeRunes].
  replace (240 + h <? 128)%Z with false by (symmetry; blia).
  rewrite leadByte4 by exact Hh.
  replace ((128 + m <? (if (h =? 0)%Z then 144 else 128))
           || ((if (h =? 4)%Z then 143 else 191) <? 128 + m))%Z
    with false.
  2:{ symmetry. destruct (h =? 0)%Z eqn:E0; destruct (h =? 4)%Z eqn:E4;
        revert E0 E4; blia. }
  cbn [Nat.leb].
  replace (contByte (128 + k)) with true by (symmetry; unfold contByte; blia).
  replace (contByte (128 + l)) with true by (symmetry; unfold contByte; blia).
  cbn [negb].
  rewrite lead3, !payload6 by lia.
  rewrite (Z.shiftl_mul_pow2 m 12), (Z.shiftl_mul_pow2 k 6) by lia.
  change (2 ^ 6)%Z with 64%Z. change (2 ^ 12)%Z with 4096%Z.
  rewrite join18 by lia.
  replace (h * 262144 + m * 4096)%Z with ((h * 64 + m) * 2 ^ 12)%Z
    by (change (2 ^ 12)%Z with 4096%Z; lia).
  rewrite lor_pow2_add by (try lia; change (2 ^ 12)%Z with 4096%Z; lia).
  replace ((h * 64 + m) * 2 ^ 12 + k * 64)%Z
    with (((h * 64 + m) * 64 + k) * 2 ^ 6)%Z
    by (change (2 ^ 12)%Z with 4096%Z; change (2 ^ 6)%Z with 64%Z; lia).
  rewrite lor_pow2_add by (try lia; change (2 ^ 6)%Z with 64%Z; lia).
  change (2 ^ 6)%Z with 64%Z. f_equal; lia.
Qed.

Lemma decode_encode :
  forall r p,
    decodeRunes (bytesOf (Rune.encode r) ++ p) = sanitize r :: decodeRunes p.
Proof.
  intros r p. unfold sanitize.
  destruct ((r <? 0) || (1114111 <? r) || (55296 <=? r) && (r <=? 57343))%Z
    eqn:Hinv.
  - unfold Rune.encode. rewrite Hinv.
    apply (decode3 15 63 61); lia.
  - assert (Hr : (0 <= r <= 1114111 /\ (r < 55296 \/ 57343 < r))%Z)
      by (revert Hinv; blia).
    destruct (Z.lt_ge_cases r 128) as [H1|H1].
    { rewrite encode_ascii, bytesOf_byte by lia.
      cbn [bytesOf app decodeRunes].
      replace (r <? 128)%Z with true by (symmetry; blia). reflexivity. }
    destruct (Z.lt_ge_cases r 2048) as [H2|H2].
    { rewrite bytes_encode2 by lia. cbn [app].
      rewrite decode2 by zdm. f_equal. zdm. }
    destruct (Z.lt_ge_cases r 65536) as [H3|H3].
    { rewrite bytes_encode3 by lia. cbn [app].
      rewrite decode3 by zdm. f_equal. zdm. }
    rewrite bytes_encode4 by lia. cbn [app].
    rewrite decode4 by zdm. f_equal. zdm.
Qed.

(** Converting runes to a string and ranging over it gives the runes
    back, the invalid ones as [RuneError]. *)
Lemma runesOf_to_string :
  forall rs, runesOf (Rune.to_string rs) = map sanitize rs.
Proof.
  unfold runesOf. induction rs as [|r rs IH]; [reflexivity|].
  cbn [Rune.to_string map]. rewrite bytesOf_app, decode_encode.
  now rewrite IH.
Qed.

(** ** Invariants of the loop, in general *)

(** A property of the tokenizer that holds when [Tokenize] starts and is
    kept by every call the loop makes holds when [Tokenize] returns, for
    the tokenizer whose tokens are returned; the cursor is then at the end
    of the input. *)
Lemma loop_invariant :
  forall (I : Tokenizer -> Prop),
    (forall f t f' t',
        pos t < len (bs t) -> state t = Some f -> I t ->
        call f t = Ok (f', t') -> I (set_state t' f')) ->
    forall fuel t toks e,
      I t ->
      loop fuel (len (bs t)) t = Returned toks e ->
      exists t',
        I t' /\ tokens t' = toks /\ bs t' = bs t
        /\ (state t' = None \/ len (bs t) <= pos t').
Proof.
  intros I Hstep.
  induction fuel as [|fuel IH]; intros t toks e Hi H; simpl in H.
  - destruct (state t) eqn:Hst.
    + destruct (pos t <? len (bs t)) eqn:Hlt; [discriminate|].
      apply Nat.ltb_ge in Hlt. injection H as <- <-.
      exists t. auto.
    + injection H as <- <-. exists t. auto.
  - destruct (state t) as [f|] eqn:Hst.
    2:{ injection H as <- <-. exists t. auto. }
    destruct (pos t <? len (bs t)) eqn:Hlt.
    2:{ apply Nat.ltb_ge in Hlt. injection H as <- <-. exists t. auto. }
    apply Nat.ltb_lt in Hlt.
    destruct (call f t) as [[f' t']|msg] eqn:Hcall; [|discriminate].
    destruct (call_transition _ _ _ _ Hlt Hcall) as (Hbs & _).
    specialize (IH (set_state t' f') toks e (Hstep _ _ _ _ Hlt Hst Hi Hcall)).
    cbn [bs set_state] in IH. rewrite Hbs in IH.
    destruct (IH H) as (t2 & Hi2 & Htok & Hbs2 & Hend).
    exists t2. auto.
Qed.

(** ** The tokens account for the whole input *)

Lemma cover_spaces :
  forall s toks n p,
    cover s toks p ->
    p + n <= len s ->
    (forall i, p <= i < p + n -> isWhitespace (index s i) = true) ->
    cover s toks (p + n).
Proof.
  intros s toks. induction n as [|n IH]; intros p Hc Hlen Hws.
  - now rewrite Nat.add_0_r.
  - replace (p + S n) with (p + n + 1) by lia.
    apply cover_space; [|lia|apply Hws; lia].
    apply IH; [exact Hc|lia|]. intros i Hi. apply Hws. lia.
Qed.

Lemma cover_skipWhitespace :
  forall t,
    pos t <= len (bs t) ->
    cover (bs t) (tokens t) (pos t) ->
    cover (bs t) (tokens t) (pos (skipWhitespace t)).
Proof.
  intros t Hle Hc.
  destruct (skipWhitespace_spec t) as (_ & _ & _ & Hge & Hle' & _).
  specialize (Hle' Hle).
  replace (pos (skipWhitespace t))
    with (pos t + (pos (skipWhitespace t) - pos t)) by lia.
  apply cover_spaces; [exact Hc|lia|].
  intros i Hi.
  apply (advanceWhile_all isWhitespace (len (bs t) - pos t) (bs t) (pos t)).
  rewrite <- skipLoop_advanceWhile.
  change (skipLoop (len (bs t) - pos t) (bs t) (pos t))
    with (pos (skipWhitespace t)).
  lia.
Qed.

Lemma covered_step :
  forall f t f' t',
    pos t < len (bs t) -> state t = Some f -> covered t ->
    call f t = Ok (f', t') -> covered (set_state t' f').
Proof.
  intros f t f' t' Hlt Hst (Hok & Hle & Hc) H.
  rewrite Hst in Hok.
  destruct (call_transition _ _ _ _ Hlt H) as (Hbs & Hpos & _).
  destruct (call_wf _ _ _ _ Hlt Hok H) as (Hok' & _).
  unfold covered. cbn [bs pos tokens state set_state]. rewrite Hbs.
  split; [exact Hok'|]. split; [lia|].
  pose proof (cover_skipWhitespace t Hle Hc) as Hskip.
  destruct (skipWhitespace_spec t) as (Hbs1 & Htok1 & _ & Hge1 & Hle1 & _).
  specialize (Hle1 Hle).
  destruct f; simpl in H.
  - unfold tokTextOrForm in H; cbv zeta in H.
    repeat match type of H with
           | (if ?c then _ else _) = _ => destruct c
           end; injection H as <- <-; now rewrite Htok1.
  - unfold tokText in H; cbv zeta in H. rewrite Hbs1 in H.
    destruct (len (bs t) <=? pos (skipWhitespace t));
      [injection H as <- <-; now rewrite Htok1|].
    destruct (textLoop _ _ _ _) as [e|msg] eqn:Hloop; [|discriminate].
    injection H as <- <-. cbn [tokens pos append set_pos].
    rewrite Htok1. apply cover_token; [exact Hskip|].
    split; [now apply textLoop_ge in Hloop|].
    now apply (textLoop_le _ _ _ _ _ Hle1 Hloop).
  - unfold tokForm in H. injection H as <- <-.
    cbn [tokens pos append set_pos].
    unfold state_ok in Hok. cbv zeta in Hok. apply Z.eqb_eq in Hok.
    replace "(" with (Rune.to_string (slice (bs t) (pos t) (pos t + 1)))
      by (rewrite slice_one, Hok by exact Hlt; reflexivity).
    apply cover_token; [exact Hc|lia].
  - unfold tokNilOrAtom in H; cbv zeta in H.
    repeat match type of H with
           | (if ?c then _ else _) = _ => destruct c
           end; try discriminate; injection H as <- <-; now rewrite Htok1.
  - unfold tokNil in H. injection H as <- <-.
    cbn [tokens pos append set_pos].
    unfold state_ok in Hok. cbv zeta in Hok. apply Z.eqb_eq in Hok.
    replace ")" with (Rune.to_string (slice (bs t) (pos t) (pos t + 1)))
      by (rewrite slice_one, Hok by exact Hlt; reflexivity).
    apply cover_token; [exact Hc|lia].
  - unfold tokAtom in H; cbv zeta in H. injection H as <- <-.
    cbn [tokens pos append set_pos].
    apply cover_token; [exact Hc|].
    rewrite atomLoop_advanceWhile.
    split; [apply advanceWhile_ge | apply advanceWhile_le; lia].
  - unfold tokNilOrTextOrForm in H; cbv zeta in H.
    repeat match type of H with
           | (if ?c then _ else _) = _ => destruct c
           end; injection H as <- <-; now rewrite Htok1.
  - unfold state_ok in Hok. lia.
Qed.

Lemma tokenize_cover :
  forall input toks e,
    tokenize input = Returned toks e -> cover input toks (len input).
Proof.
  intros input toks e H.
  unfold tokenize, Tokenize, TokenizeFuel in H.
  set (t0 := set_state (NewTokenizer input) (Some FnTextOrForm)) in H.
  assert (H0 : covered t0).
  { split; [exact I|]. split; [simpl; lia|]. constructor. }
  destruct (loop_invariant covered covered_step _ t0 toks e H0 H)
    as (t' & (Hok & Hle & Hc) & Htok & Hbs & Hend).
  rewrite Htok, Hbs in *. cbn [bs t0 set_state NewTokenizer] in *.
  assert (Hpos : pos t' = len input).
  { destruct Hend as [Hn|Hge]; [|lia].
    rewrite Hn in Hok. destruct Hok. }
  now rewrite <- Hpos.
Qed.

(** ** The order of the tokens *)

Lemma textLoop_exit :
  forall fuel s e q e',
    len s - e <= fuel ->
    textLoop fuel s e q = Ok e' ->
    len s <= e'
    \/ (index s e' =? Rune.rparen)%Z || (index s e' =? Rune.lparen)%Z = true.
Proof.
  induction fuel as [|fuel IH]; intros s e q e' Hf H; simpl in H.
  - injection H as <-. left. lia.
  - destruct (e <? len s) eqn:Hlt; simpl in H.
    2:{ injection H as <-. apply Nat.ltb_ge in Hlt. now left. }
    apply Nat.ltb_lt in Hlt.
    destruct ((negb (index s e =? Rune.rparen)%Z
               && negb (index s e =? Rune.lparen)%Z) || q) eqn:Hc.
    2:{ injection H as <-. right.
        apply orb_false_iff in Hc as [Hc _].
        destruct (index s e =? Rune.rparen)%Z; [reflexivity|].
        destruct (index s e =? Rune.lparen)%Z; [reflexivity|discriminate]. }
    repeat match type of H with
           | (if ?c then _ else _) = _ => destruct c
           end; try discriminate; apply IH in H; auto; lia.
Qed.

Lemma sequenceOK_app :
  forall a b prev,
    sequenceOK prev (a ++ b)
    = sequenceOK prev a && sequenceOK (lastType prev a) b.
Proof.
  induction a as [|k a IH]; intros b prev; simpl; [reflexivity|].
  now rewrite IH, andb_assoc.
Qed.

Lemma lastType_app :
  forall a b prev, lastType prev (a ++ b) = lastType (lastType prev a) b.
Proof. intros; unfold lastType; apply fold_left_app. Qed.

Lemma textsOK_app :
  forall toks k,
    textsOK toks = true ->
    (toks = [] \/ emptyText k = false) ->
    textsOK (toks ++ [k]) = true.
Proof.
  intros [|k0 toks] k Hok Hk; [reflexivity|].
  destruct Hk as [Hk|Hk]; [discriminate|].
  unfold textsOK in *. simpl in *.
  rewrite forallb_app, Hok. simpl. now rewrite Hk.
Qed.

Lemma lastType_nil :
  forall toks, lastType None toks = None -> toks = [].
Proof.
  intros toks. destruct toks as [|k toks] using rev_ind; [reflexivity|].
  rewrite lastType_app. discriminate.
Qed.

Lemma encode_nonempty : forall r, Rune.encode r <> "".
Proof.
  intros r. unfold Rune.encode.
  repeat match goal with |- context [if ?c then _ else _] => destruct c end;
    discriminate.
Qed.

Lemma text_nonempty :
  forall s p e,
    p < e <= len s -> String.eqb (Rune.to_string (slice s p e)) "" = false.
Proof.
  intros s p e He. apply String.eqb_neq.
  assert (Hl : len (slice s p e) = e - p).
  { unfold slice. rewrite length_firstn, length_skipn. lia. }
  destruct (slice s p e) as [|r rs]; [simpl in Hl; lia|].
  cbn [Rune.to_string]. pose proof (encode_nonempty r) as Hr.
  destruct (Rune.encode r); [congruence|discriminate].
Qed.

Lemma emit_ok :
  forall toks k,
    sequenceOK None toks = true ->
    mayCome (lastType None toks) (Typ k) = true ->
    sequenceOK None (toks ++ [k]) = true
    /\ lastType None (toks ++ [k]) = Some (Typ k).
Proof.
  intros toks k Hseq Hk. split.
  - rewrite sequenceOK_app, Hseq. simpl. now rewrite Hk.
  - now rewrite lastType_app.
Qed.

Lemma paren_not_whitespace :
  forall c,
    (c =? Rune.rparen)%Z || (c =? Rune.lparen)%Z = true ->
    isWhitespace c = false.
Proof.
  intros c H. apply orb_true_iff in H as [H|H];
    apply Z.eqb_eq in H; subst; reflexivity.
Qed.

Lemma ordered_step :
  forall f t f' t',
    pos t < len (bs t) -> state t = Some f -> ordered t ->
    call f t = Ok (f', t') -> ordered (set_state t' f').
Proof.
  intros f t f' t' Hlt Hst (Hok & Hseq & Htxt & Hlast) H.
  rewrite Hst in Hok, Hlast.
  destruct (call_transition _ _ _ _ Hlt H) as (Hbs & Hpos & _).
  destruct (call_wf _ _ _ _ Hlt Hok H) as (Hok' & _).
  unfold ordered. cbn [bs pos tokens state set_state]. cbv zeta.
  split; [exact Hok'|].
  destruct (skipWhitespace_spec t)
    as (Hbs1 & Htok1 & _ & Hge1 & Hle1 & Hnws1 & Hstay1 & _).
  destruct f; simpl in H.
  - (* tokTextOrForm *)
    unfold tokTextOrForm in H; cbv zeta in H.
    repeat match type of H with
           | (if ?c then _ else _) = _ => destruct c
           end; injection H as <- <-; rewrite Htok1;
      rewrite ?Hlast; repeat split; auto.
  - (* tokText *)
    destruct Hlast as [Hmay Hfirst].
    unfold state_ok in Hok. cbv zeta in Hok. destruct Hok as [Hnl Hnw].
    specialize (Hstay1 Hnw).
    unfold tokText in H; cbv zeta in H. rewrite Hbs1, Hstay1 in H.
    replace (len (bs t) <=? pos t) with false in H
      by (symmetry; apply Nat.leb_gt; exact Hlt).
    destruct (textLoop _ _ _ _) as [e|msg] eqn:Hloop; [|discriminate].
    injection H as <- <-. cbn [tokens pos bs append set_pos].
    rewrite Htok1, Hbs1.
    set (k := {| Typ := TypeText;
                 Text := Rune.to_string (slice (bs t) (pos t) e);
                 Pos := pos t |}).
    destruct (emit_ok (tokens t) k Hseq Hmay) as [Hseq' Hlt'].
    split; [exact Hseq'|]. split.
    + apply textsOK_app; [exact Htxt|].
      destruct Hfirst as [Hnone|Hnr]; [left; now apply lastType_nil|].
      right. unfold emptyText, k; cbn [Typ Text].
      apply text_nonempty. split.
      * replace (len (bs t) - pos t)
          with (S (len (bs t) - pos t - 1)) in Hloop by lia.
        now apply textLoop_move in Hloop.
      * apply (textLoop_le _ _ _ _ _ (Nat.lt_le_incl _ _ Hlt) Hloop).
    + rewrite Hlt'. split; [now left|].
      intros _ He.
      destruct (textLoop_exit _ _ _ _ _ (Nat.le_refl _) Hloop) as [Hend|Hp];
        [lia|exact Hp].
  - (* tokForm *)
    unfold tokForm in H. injection H as <- <-.
    cbn [tokens pos bs append set_pos].
    destruct (emit_ok (tokens t)
                {| Typ := TypeFormStart; Text := "("; Pos := pos t |}
                Hseq Hlast) as [Hseq' Hlt'].
    split; [exact Hseq'|]. split; [|exact Hlt'].
    apply textsOK_app; [exact Htxt|now right].
  - (* tokNilOrAtom *)
    unfold tokNilOrAtom in H; cbv zeta in H.
    repeat match type of H with
           | (if ?c then _ else _) = _ => destruct c
           end; try discriminate; injection H as <- <-; rewrite Htok1;
      rewrite ?Hlast; repeat split; auto.
  - (* tokNil *)
    unfold tokNil in H. injection H as <- <-.
    cbn [tokens pos bs append set_pos].
    destruct (emit_ok (tokens t)
                {| Typ := TypeFormEnd; Text := ")"; Pos := pos t |}
                Hseq Hlast) as [Hseq' Hlt'].
    split; [exact Hseq'|]. split; [apply textsOK_app; auto|].
    rewrite Hlt'. split; [auto|discriminate].
  - (* tokAtom *)
    unfold tokAtom in H; cbv zeta in H. injection H as <- <-.
    cbn [tokens pos bs append set_pos].
    match goal with
    | |- sequenceOK None (tokens t ++ [?k]) = true /\ _ =>
        destruct (emit_ok (tokens t) k Hseq) as [Hseq' Hlt'];
          [cbn [Typ]; now rewrite Hlast|]
    end.
    split; [exact Hseq'|]. split; [apply textsOK_app; auto|].
    rewrite Hlt'. split; [auto|discriminate].
  - (* tokNilOrTextOrForm *)
    destruct Hlast as [Hkind Hparen].
    unfold tokNilOrTextOrForm in H; cbv zeta in H. rewrite Hbs1 in H.
    destruct (len (bs t) <=? pos (skipWhitespace t));
      [injection H as <- <-; rewrite Htok1; auto|].
    destruct (index (bs t) (pos (skipWhitespace t)) =? Rune.rparen)%Z eqn:Er.
    { injection H as <- <-. rewrite Htok1.
      repeat split; auto.
      destruct Hkind as [->|[->| ->]]; reflexivity. }
    destruct (index (bs t) (pos (skipWhitespace t)) =? Rune.lparen)%Z eqn:El.
    { injection H as <- <-. rewrite Htok1.
      repeat split; auto.
      destruct Hkind as [->|[->| ->]]; reflexivity. }
    injection H as <- <-. rewrite Htok1, Hbs1.
    repeat split; auto.
    destruct Hkind as [Hk|[->| ->]]; try reflexivity.
    exfalso.
    pose proof (Hparen Hk Hlt) as Hp.
    rewrite (Hstay1 (paren_not_whitespace _ Hp)) in Er, El.
    rewrite Er, El in Hp. discriminate.
  - (* tokEOF *)
    unfold state_ok in Hok. lia.
Qed.

Lemma tokenize_ordered :
  forall input toks e,
    tokenize input = Returned toks e ->
    sequenceOK None toks = true /\ textsOK toks = true.
Proof.
  intros input toks e H.
  unfold tokenize, Tokenize, TokenizeFuel in H.
  set (t0 := set_state (NewTokenizer input) (Some FnTextOrForm)) in H.
  assert (H0 : ordered t0) by (repeat split; auto).
  destruct (loop_invariant ordered ordered_step _ t0 toks e H0 H)
    as (t' & (_ & Hseq & Htxt & _) & Htok & _).
  rewrite Htok in *. now split.
Qed.

(** ** An input that starts with a closing parenthesis *)

(** The tokens [Tokenize] returns extend those the tokenizer holds. *)
Lemma loop_extends :
  forall fuel t toks e,
    loop fuel (len (bs t)) t = Returned toks e ->
    exists suffix, toks = tokens t ++ suffix.
Proof.
  intros fuel t toks e H.
  assert (Hstep : forall f t1 f' t1',
             pos t1 < len (bs t1) -> state t1 = Some f ->
             (exists suffix, tokens t1 = tokens t ++ suffix) ->
             call f t1 = Ok (f', t1') ->
             exists suffix, tokens (set_state t1' f') = tokens t ++ suffix).
  { intros f t1 f' t1' Hlt _ (suffix & Hs) Hcall.
    destruct (call_transition _ _ _ _ Hlt Hcall)
      as (_ & _ & (p & new & Hnew & _) & _).
    exists (suffix ++ new). cbn [tokens set_state].
    now rewrite Hnew, Hs, app_assoc. }
  destruct (loop_invariant _ Hstep fuel t toks e) as (t' & (suffix & Hs) & Htok & _).
  - exists []. now rewrite app_nil_r.
  - exact H.
  - exists suffix. now rewrite <- Htok.
Qed.

(** The first rune that is not whitespace is [)]: an empty [Text] token
    and the [FormEnd] token, both at its position, come first. *)
Lemma rparen_first_run :
  forall rest toks e,
    tokenize (Rune.rparen :: rest) = Returned toks e ->
    exists suffix,
      toks = {| Typ := TypeText; Text := ""; Pos := 0 |}
             :: {| Typ := TypeFormEnd; Text := ")"; Pos := 0 |} :: suffix.
Proof.
  intros rest toks e H.
  unfold tokenize, Tokenize, TokenizeFuel in H. proj_in H.
  set (s := Rune.rparen :: rest) in *.
  assert (Hlen : len s = S (len rest)) by reflexivity.
  replace (3 * (len s - 0) + 1) with (S (S (S (S (3 * len rest))))) in H
    by lia.
  (* tokTextOrForm *)
  rewrite (loop_step _ _ _ FnTextOrForm) in H by (proj; auto; lia).
  cbn [call] in H. unfold tokTextOrForm in H.
  rewrite (skipWhitespace_run _ 0) in H by (proj; auto; lia).
  proj_in H.
  replace (len s <=? 0) with false in H by reflexivity.
  change (index s 0) with Rune.rparen in H.
  cbn [Z.eqb Rune.rparen Rune.lparen Pos.eqb] in H. proj_in H.
  (* tokText *)
  rewrite (loop_step _ _ _ FnText) in H by (proj; auto; lia).
  cbn [call] in H. unfold tokText in H.
  rewrite (skipWhitespace_run _ 0) in H by (proj; auto; lia).
  proj_in H.
  replace (len s <=? 0) with false in H by reflexivity.
  rewrite textLoop_stay in H by reflexivity. proj_in H.
  rewrite slice_empty in H. cbn [Rune.to_string] in H.
  (* tokNilOrTextOrForm *)
  rewrite (loop_step _ _ _ FnNilOrTextOrForm) in H by (proj; auto; lia).
  cbn [call] in H. unfold tokNilOrTextOrForm in H.
  rewrite (skipWhitespace_run _ 0) in H by (proj; auto; lia).
  proj_in H.
  replace (len s <=? 0) with false in H by reflexivity.
  change (index s 0) with Rune.rparen in H.
  cbn [Z.eqb Rune.rparen Pos.eqb] in H. proj_in H.
  (* tokNil *)
  rewrite (loop_step _ _ _ FnNil) in H by (proj; auto; lia).
  cbn [call] in H. unfold tokNil in H. proj_in H.
  match type of H with
  | loop ?f _ ?T = _ => apply (loop_extends f T) in H
  end.
  destruct H as (suffix & ->). proj.
  now exists suffix.
Qed.

(** ** The range checks never fail *)

Lemma indexC_in :
  forall s i, i < len s -> indexC s i = Ok (index s i).
Proof.
  intros s i Hi. unfold indexC, index.
  destruct (nth_error s i) as [r|] eqn:E.
  - now rewrite (nth_error_nth s i 0%Z E).
  - apply nth_error_None in E. lia.
Qed.

Lemma indexC_out :
  forall s i,
    len s <= i -> indexC s i = Panic "runtime error: index out of range".
Proof.
  intros s i Hi. unfold indexC.
  apply nth_error_None in Hi. now rewrite Hi.
Qed.

Lemma sliceC_in :
  forall s lo hi, lo <= hi <= len s -> sliceC s lo hi = Ok (slice s lo hi).
Proof.
  intros s lo hi [H1 H2]. unfold sliceC.
  apply Nat.leb_le in H1, H2. now rewrite H1, H2.
Qed.

Lemma sliceC_out :
  forall s lo hi,
    hi < lo \/ len s < hi ->
    sliceC s lo hi = Panic "runtime error: slice bounds out of range".
Proof.
  intros s lo hi H. unfold sliceC.
  destruct (lo <=? hi) eqn:H1; [|reflexivity].
  destruct (hi <=? len s) eqn:H2; [|reflexivity].
  apply Nat.leb_le in H1, H2. lia.
Qed.

Lemma skipLoopC_skipLoop :
  forall fuel s p, skipLoopC fuel s p = Ok (skipLoop fuel s p).
Proof.
  induction fuel as [|fuel IH]; intros s p; [reflexivity|].
  cbn [skipLoopC skipLoop].
  destruct (p <? len s) eqn:Hlt; cbn [bind andb]; [|reflexivity].
  apply Nat.ltb_lt in Hlt. rewrite indexC_in by exact Hlt. cbn [bind].
  destruct (isWhitespace (index s p)); [apply IH|reflexivity].
Qed.

Lemma atomLoopC_atomLoop :
  forall fuel s p, atomLoopC fuel s p = Ok (atomLoop fuel s p).
Proof.
  induction fuel as [|fuel IH]; intros s p; [reflexivity|].
  cbn [atomLoopC atomLoop].
  destruct (p <? len s) eqn:Hlt; cbn [bind andb]; [|reflexivity].
  apply Nat.ltb_lt in Hlt. rewrite indexC_in by exact Hlt. cbn [bind].
  destruct (isAlphaNum (index s p)); [apply IH|reflexivity].
Qed.

Lemma textLoopC_textLoop :
  forall fuel s e q, textLoopC fuel s e q = textLoop fuel s e q.
Proof.
  induction fuel as [|fuel IH]; intros s e q; [reflexivity|].
  cbn [textLoopC textLoop].
  (* the tests are decided one after the other; an index expression is
     rewritten once its bounds test is known *)
  destruct q;
    repeat first
      [ progress cbn [bind andb orb negb]
      | rewrite indexC_in by lia
      | match goal with
        | H : (_ <? _) = true |- _ => apply Nat.ltb_lt in H
        | H : (_ <? _) = false |- _ => apply Nat.ltb_ge in H
        | |- context [?x <? ?y] => destruct (x <? y) eqn:?
        | |- context [(?x =? ?y)%Z] => destruct (x =? y)%Z eqn:?
        end ];
    first [reflexivity | apply IH | congruence | lia].
Qed.

Lemma skipWhitespaceC_skipWhitespace :
  forall t, skipWhitespaceC t = Ok (skipWhitespace t).
Proof.
  intros t. unfold skipWhitespaceC, skipWhitespace.
  now rewrite skipLoopC_skipLoop.
Qed.

(** A dispatching method reads the rune under the cursor behind its test
    of the cursor. *)
Lemma indexC_cursor :
  forall t,
    (len (bs t) <=? pos t) = false ->
    indexC (bs t) (pos t) = Ok (index (bs t) (pos t)).
Proof.
  intros t H. apply indexC_in. now apply Nat.leb_gt.
Qed.

Lemma tokTextC_tokText : forall t, tokTextC t = tokText t.
Proof.
  intros t. unfold tokTextC, tokText.
  rewrite skipWhitespaceC_skipWhitespace. cbn [bind]. cbv zeta.
  destruct (skipWhitespace_spec t) as (Hbs & _ & _ & Hge & _).
  set (t1 := skipWhitespace t) in *.
  destruct (len (bs t1) <=? pos t1) eqn:Hend; [reflexivity|].
  apply Nat.leb_gt in Hend.
  rewrite textLoopC_textLoop.
  destruct (textLoop (len (bs t1) - pos t1) (bs t1) (pos t1) false)
    as [textEnd|msg] eqn:E; cbn [bind]; [|reflexivity].
  rewrite sliceC_in; [reflexivity|].
  split; [eapply textLoop_ge; exact E|].
  eapply textLoop_le; [|exact E]. lia.
Qed.

Lemma tokAtomC_tokAtom :
  forall t, pos t <= len (bs t) -> tokAtomC t = tokAtom t.
Proof.
  intros t Hle. unfold tokAtomC, tokAtom.
  rewrite atomLoopC_atomLoop. cbn [bind]. cbv zeta.
  rewrite sliceC_in; [reflexivity|].
  rewrite atomLoop_advanceWhile.
  split; [apply advanceWhile_ge | now apply advanceWhile_le].
Qed.

(** Every method gives, with the range checks, what it gives without
    them, as long as the cursor is not behind the end of the input. *)
Lemma callC_call :
  forall f t, pos t <= len (bs t) -> callC f t = call f t.
Proof.
  intros f t Hle; destruct f; cbn [callC call]; try reflexivity.
  - unfold tokTextOrFormC, tokTextOrForm.
    rewrite skipWhitespaceC_skipWhitespace. cbn [bind]. cbv zeta.
    destruct (len (bs (skipWhitespace t)) <=? pos (skipWhitespace t)) eqn:E;
      [reflexivity|].
    now rewrite indexC_cursor.
  - apply tokTextC_tokText.
  - unfold tokNilOrAtomC, tokNilOrAtom.
    rewrite skipWhitespaceC_skipWhitespace. cbn [bind]. cbv zeta.
    destruct (len (bs (skipWhitespace t)) <=? pos (skipWhitespace t)) eqn:E;
      [reflexivity|].
    now rewrite indexC_cursor.
  - now apply tokAtomC_tokAtom.
  - unfold tokNilOrTextOrFormC, tokNilOrTextOrForm.
    rewrite skipWhitespaceC_skipWhitespace. cbn [bind]. cbv zeta.
    destruct (len (bs (skipWhitespace t)) <=? pos (skipWhitespace t)) eqn:E;
      [reflexivity|].
    now rewrite indexC_cursor.
Qed.

Lemma loopC_loop :
  forall fuel t, loopC fuel (len (bs t)) t = loop fuel (len (bs t)) t.
Proof.
  induction fuel as [|fuel IH]; intros t; [reflexivity|].
  cbn [loopC loop].
  destruct (state t) as [f|]; [|reflexivity].
  destruct (pos t <? len (bs t)) eqn:Hlt; [|reflexivity].
  apply Nat.ltb_lt in Hlt.
  rewrite callC_call by lia.
  destruct (call f t) as [[f' t']|msg] eqn:E; [|reflexivity].
  destruct (call_transition _ _ _ _ Hlt E) as (Hbs & _).
  replace (len (bs t)) with (len (bs (set_state t' f')))
    by (cbn [bs set_state]; now rewrite Hbs).
  apply IH.
Qed.

Lemma tokenizeC_tokenize_eq :
  forall input, tokenizeC input = tokenize input.
Proof.
  intros input. unfold tokenizeC, tokenize, TokenizeC, Tokenize, TokenizeFuel.
  cbv zeta.
  apply (loopC_loop _ (set_state (NewTokenizer input) (Some FnTextOrForm))).
Qed.

(** ** Further properties of the tokenizer *)

(** X2.  The index and slice expressions of the methods are always in
    range.  With Go's range checks on [t.bs[i]] and [t.bs[t.pos:end]]
    (which fail outside the range), every method called with the cursor
    at most [len(t.bs)] gives what it gives without them, and so does a
    whole run of [Tokenize]: no runtime range panic.  A call made by the
    loop (cursor inside the input) that returns leaves the input as it is
    and the cursor between where it was and the end of the input. *)
Theorem call_keeps_cursor_in_range :
  (forall s i,
      len s <= i -> indexC s i = Panic "runtime error: index out of range")
  /\ (forall s lo hi,
         hi < lo \/ len s < hi ->
         sliceC s lo hi = Panic "runtime error: slice bounds out of range")
  /\ (forall f t, pos t <= len (bs t) -> callC f t = call f t)
  /\ (forall input, tokenizeC input = tokenize input)
  /\ (forall f t f' t',
         pos t < len (bs t) ->
         call f t = Ok (f', t') ->
         bs t' = bs t /\ pos t <= pos t' <= len (bs t)).
Proof.
  split; [exact indexC_out|].
  split; [exact sliceC_out|].
  split; [exact callC_call|].
  split; [exact tokenizeC_tokenize_eq|].
  intros f t f' t' Hlt H.
  destruct (call_transition _ _ _ _ Hlt H) as (Hbs & Hpos & _). now split.
Qed.

Lemma call_keeps_cursor_in_range_witness :
  callC FnText (NewTokenizer (Rune.of_ascii "a\(b)"))
  = Ok (Some FnNilOrTextOrForm,
        set_pos (append (NewTokenizer (Rune.of_ascii "a\(b)"))
                   [ {| Typ := TypeText; Text := "a\(b"; Pos := 0 |} ]) 4)
  /\ callC FnAtom (set_pos (NewTokenizer (Rune.of_ascii "ab")) 3)
     = Panic "runtime error: slice bounds out of range"
  /\ tokenizeC (Rune.of_ascii "(a b)")
     = Returned [ {| Typ := TypeFormStart; Text := "("; Pos := 0 |};
                  {| Typ := TypeAtom; Text := "a"; Pos := 1 |};
                  {| Typ := TypeText; Text := "b"; Pos := 3 |};
                  {| Typ := TypeFormEnd; Text := ")"; Pos := 4 |} ] None
  /\ bs (set_pos (append (NewTokenizer (Rune.of_ascii "(a)"))
                    [ {| Typ := TypeFormStart; Text := "("; Pos := 0 |} ]) 1)
     = Rune.of_ascii "(a)"
  /\ 0 <= 1 <= 3.
Proof.
  destruct call_keeps_cursor_in_range as (_ & _ & Hcall & Hrun & Hstep).
  split.
  { rewrite (Hcall FnText (NewTokenizer (Rune.of_ascii "a\(b)")));
      [reflexivity | vm_compute; lia]. }
  split; [reflexivity|].
  split; [rewrite (Hrun (Rune.of_ascii "(a b)")); reflexivity|].
  apply (Hstep FnForm (NewTokenizer (Rune.of_ascii "(a)")) (Some FnNilOrAtom));
    [vm_compute; lia | reflexivity].
Defined.

(** X3.  [skipWhitespace] changes the cursor only; it moves it forward
    over whitespace and leaves it at the end of the input or on the first
    rune that is not whitespace. *)
Theorem skipWhitespace_stops :
  forall t,
    pos t <= len (bs t) ->
    bs (skipWhitespace t) = bs t
    /\ tokens (skipWhitespace t) = tokens t
    /\ state (skipWhitespace t) = state t
    /\ pos t <= pos (skipWhitespace t) <= len (bs t)
    /\ (forall i, pos t <= i < pos (skipWhitespace t) ->
                  isWhitespace (index (bs t) i) = true)
    /\ (pos (skipWhitespace t) <? len (bs t))
       && isWhitespace (index (bs t) (pos (skipWhitespace t))) = false.
Proof.
  intros t Hle.
  destruct (skipWhitespace_spec t)
    as (Hbs & Htok & Hst & Hge & Hle' & _).
  repeat split; auto.
  - intros i Hi.
    apply (advanceWhile_all isWhitespace (len (bs t) - pos t) (bs t) (pos t)).
    rewrite <- skipLoop_advanceWhile. exact Hi.
  - unfold skipWhitespace. cbn [pos set_pos]. rewrite skipLoop_advanceWhile.
    apply advanceWhile_exit. lia.
Qed.

Lemma skipWhitespace_stops_witness :
  pos (skipWhitespace (NewTokenizer (32 :: 9 :: Rune.of_ascii "a b")%Z)) = 2
  /\ (2 <? 5) && isWhitespace 97%Z = false.
Proof.
  split; [reflexivity|].
  apply (skipWhitespace_stops (NewTokenizer (32 :: 9 :: Rune.of_ascii "a b")%Z)).
  vm_compute; lia.
Defined.

(** X4.  An input of whitespace only (the empty input too) gives no
    token and no error. *)
Theorem tokenize_whitespace_only :
  forall ws,
    forallb isWhitespace ws = true -> tokenize ws = Returned [] None.
Proof.
  intros ws Hws. unfold tokenize, Tokenize.
  rewrite Nat.add_1_r. now apply whitespace_run.
Qed.

Lemma tokenize_whitespace_only_witness :
  tokenize [32; 10; 9; 13; 11; 12]%Z = Returned [] None.
Proof.
  apply tokenize_whitespace_only. reflexivity.
Defined.

(** X5.  Whitespace in front of an input moves the position of every
    token by the length of the whitespace and changes nothing else, a
    panic included. *)
Theorem tokenize_leading_whitespace :
  forall ws input,
    forallb isWhitespace ws = true ->
    tokenize (ws ++ input) = shiftOutcome (len ws) (tokenize input).
Proof.
  intros ws input Hws. now apply leading_whitespace_run.
Qed.

Lemma tokenize_leading_whitespace_witness :
  tokenize ([32; 10]%Z ++ Rune.of_ascii "(a)")
  = Returned [ {| Typ := TypeFormStart; Text := "("; Pos := 2 |};
               {| Typ := TypeAtom; Text := "a"; Pos := 3 |};
               {| Typ := TypeFormEnd; Text := ")"; Pos := 4 |} ] None.
Proof.
  apply (tokenize_leading_whitespace [32; 10]%Z (Rune.of_ascii "(a)")).
  reflexivity.
Defined.

(** X6.  The loop of [Tokenize] does not look behind the cursor: started
    behind any runes [pre], in any state and with any tokens [base]
    already emitted, it runs as it does without them, with the positions
    moved by the length of [pre]. *)
Theorem loop_behind_prefix :
  forall fuel pre base t,
    loop fuel (len (pre ++ bs t)) (shiftTokenizer pre base t)
    = match loop fuel (len (bs t)) t with
      | Returned toks err =>
          Returned (base ++ map (shiftToken (len pre)) toks) err
      | Panicked msg => Panicked msg
      | OutOfFuel => OutOfFuel
      end.
Proof.
  intros fuel pre base t. rewrite length_app. apply loop_shift.
Qed.

(** X7.  The scan of [tokText] and [scanText] agree: over runes [txt] that
    [scanText] accepts, followed by the end of the input or by an unquoted
    parenthesis, the scan goes from the first rune of [txt] to the rune
    behind its last, wherever [txt] is in the input. *)
Theorem textLoop_scans_text :
  forall pre txt rest q q' fuel,
    scanText q txt = Some q' ->
    scanEnds q' rest = true ->
    len txt + len rest <= fuel ->
    textLoop fuel (pre ++ txt ++ rest) (len pre) q = Ok (len pre + len txt).
Proof.
  intros pre txt rest q q' fuel Hscan Hend Hf.
  now apply (textLoop_scanText (len txt) txt pre rest q q').
Qed.

Lemma textLoop_scans_text_witness :
  textLoop 11 (Rune.of_ascii "(a " ++ Rune.of_ascii "b\)\+(\+" ++ Rune.of_ascii ") c")
    3 false
  = Ok (3 + 8).
Proof.
  apply (textLoop_scans_text (Rune.of_ascii "(a ") (Rune.of_ascii "b\)\+(\+")
           (Rune.of_ascii ") c") false false); [reflexivity | reflexivity |].
  vm_compute. lia.
Defined.

(** X8.  An input that [scanText] accepts from its first rune, which is
    not whitespace, to its end is returned as one [Text] token that holds
    the whole input, backslashes included. *)
Theorem tokenize_single_text :
  forall c txt q',
    scanText false (c :: txt) = Some q' ->
    isWhitespace c = false ->
    tokenize (c :: txt)
    = Returned [ {| Typ := TypeText; Text := Rune.to_string (c :: txt);
                    Pos := 0 |} ] None.
Proof.
  intros c txt q' Hscan Hws. unfold tokenize, Tokenize.
  cbn [bs pos NewTokenizer].
  replace (3 * (len (c :: txt) - 0) + 1)
    with (S (S (3 * len (c :: txt) - 1))) by (simpl; lia).
  now apply (text_run c txt q').
Qed.

Lemma tokenize_single_text_witness :
  tokenize (Rune.of_ascii "it's \(text\) \+(quoted)\+ \\ here")
  = Returned [ {| Typ := TypeText;
                  Text := "it's \(text\) \+(quoted)\+ \\ here";
                  Pos := 0 |} ] None.
Proof.
  apply (tokenize_single_text 105%Z
           (Rune.of_ascii "t's \(text\) \+(quoted)\+ \\ here") false);
    reflexivity.
Defined.

(** X9.  Every token [Tokenize] returns is a token of the input: a
    [FormStart] or [FormEnd] token sits on a [(] or [)] of the input and
    has it as text; the text of an [Atom] or [Text] token is the input
    from the token's position on, for an atom the longest run of atom
    runes there, for text runes that [scanText] accepts up to the end of
    the input or an unquoted parenthesis. *)
Theorem tokenize_tokens_wf :
  forall input toks e,
    tokenize input = Returned toks e -> Forall (token_wf input) toks.
Proof.
  intros input toks e H. now apply (tokenize_wf input toks e).
Qed.

Lemma tokenize_tokens_wf_witness :
  Forall (token_wf (Rune.of_ascii "(ab c\))"))
    [ {| Typ := TypeFormStart; Text := "("; Pos := 0 |};
      {| Typ := TypeAtom; Text := "ab"; Pos := 1 |};
      {| Typ := TypeText; Text := "c\)"; Pos := 4 |};
      {| Typ := TypeFormEnd; Text := ")"; Pos := 7 |} ].
Proof.
  apply (tokenize_tokens_wf (Rune.of_ascii "(ab c\))") _ None).
  reflexivity.
Defined.

(** X10.  The tokens [Tokenize] returns account for the whole input: from
    left to right the input is whitespace that was skipped and, token by
    token in their order, the runes each token has as its text; no rune is
    left out and none is taken twice. *)
Theorem tokenize_covers_input :
  forall input toks e,
    tokenize input = Returned toks e -> cover input toks (len input).
Proof.
  intros input toks e H. now apply (tokenize_cover input toks e).
Qed.

Lemma tokenize_covers_input_witness :
  cover (Rune.of_ascii " (ab c) ")
    [ {| Typ := TypeFormStart; Text := "("; Pos := 1 |};
      {| Typ := TypeAtom; Text := "ab"; Pos := 2 |};
      {| Typ := TypeText; Text := "c"; Pos := 5 |};
      {| Typ := TypeFormEnd; Text := ")"; Pos := 6 |} ]
    8.
Proof.
  apply (tokenize_covers_input (Rune.of_ascii " (ab c) ") _ None).
  reflexivity.
Defined.

(** X11.  The order of the tokens [Tokenize] returns: the first is a
    [Text] or a [FormStart] token; a [FormStart] is followed by an [Atom]
    or a [FormEnd], so an [Atom] only comes directly after a [FormStart];
    a [Text] token is followed by a [FormStart] or a [FormEnd], never by
    another [Text] token. *)
Theorem tokenize_token_order :
  forall input toks e,
    tokenize input = Returned toks e -> sequenceOK None toks = true.
Proof.
  intros input toks e H. now apply (tokenize_ordered input toks e).
Qed.

Lemma tokenize_token_order_witness :
  sequenceOK None
    [ {| Typ := TypeFormStart; Text := "("; Pos := 0 |};
      {| Typ := TypeAtom; Text := "a"; Pos := 1 |};
      {| Typ := TypeText; Text := "b "; Pos := 3 |};
      {| Typ := TypeFormStart; Text := "("; Pos := 5 |};
      {| Typ := TypeFormEnd; Text := ")"; Pos := 6 |};
      {| Typ := TypeFormEnd; Text := ")"; Pos := 7 |} ]
  = true.
Proof.
  apply (tokenize_token_order (Rune.of_ascii "(a b ())") _ None).
  reflexivity.
Defined.

(** X12.  Of the tokens [Tokenize] returns only the first can be a [Text]
    token with empty text. *)
Theorem tokenize_texts_nonempty :
  forall input toks e,
    tokenize input = Returned toks e -> textsOK toks = true.
Proof.
  intros input toks e H. now apply (tokenize_ordered input toks e).
Qed.

Lemma tokenize_texts_nonempty_witness :
  textsOK
    [ {| Typ := TypeText; Text := ""; Pos := 0 |};
      {| Typ := TypeFormEnd; Text := ")"; Pos := 0 |};
      {| Typ := TypeText; Text := "a"; Pos := 1 |} ]
  = true.
Proof.
  apply (tokenize_texts_nonempty (Rune.of_ascii ")a") _ None).
  reflexivity.
Defined.

(** X13.  When the first rune of the input that is not whitespace is [)],
    the tokens [Tokenize] returns start with a [Text] token with empty
    text and the [FormEnd] token, both at the position of that rune. *)
Theorem tokenize_rparen_first :
  forall ws rest toks e,
    forallb isWhitespace ws = true ->
    tokenize (ws ++ Rune.rparen :: rest) = Returned toks e ->
    exists suffix,
      toks = {| Typ := TypeText; Text := ""; Pos := len ws |}
             :: {| Typ := TypeFormEnd; Text := ")"; Pos := len ws |}
             :: suffix.
Proof.
  intros ws rest toks e Hws H.
  rewrite leading_whitespace_run in H by exact Hws.
  destruct (tokenize (Rune.rparen :: rest)) as [toks0 e0| |] eqn:H0;
    try discriminate.
  injection H as <- <-.
  apply rparen_first_run in H0 as (suffix & ->).
  exists (map (shiftToken (len ws)) suffix).
  cbn [map]. unfold shiftToken. cbn [Typ Text Pos].
  now rewrite Nat.add_0_r.
Qed.

Lemma tokenize_rparen_first_witness :
  exists suffix,
    [ {| Typ := TypeText; Text := ""; Pos := 1 |};
      {| Typ := TypeFormEnd; Text := ")"; Pos := 1 |};
      {| Typ := TypeFormStart; Text := "("; Pos := 2 |} ]
    = {| Typ := TypeText; Text := ""; Pos := len [32%Z] |}
      :: {| Typ := TypeFormEnd; Text := ")"; Pos := len [32%Z] |}
      :: suffix.
Proof.
  apply (tokenize_rparen_first [32%Z] [Rune.lparen] _ None); reflexivity.
Defined.

(** X14.  [Tokenize] panics in two situations only, each with its own
    message: the input has a backslash that is followed by none of
    [( ) \ +] (or by nothing), or it has a [(] whose next rune that is not
    whitespace is a [(]. *)
Theorem tokenize_panic_cause :
  forall input msg,
    tokenize input = Panicked msg -> panic_cause input msg.
Proof.
  intros input msg H. now apply tokenize_panic.
Qed.

Lemma tokenize_panic_cause_witness :
  panic_cause (Rune.of_ascii "(a) ( (b))")
    "invalid: cannot start form / expected atom or nil".
Proof.
  apply (tokenize_panic_cause (Rune.of_ascii "(a) ( (b))")). reflexivity.
Defined.

(** ** Properties of the rendering *)

(** X15.  [visibleString] never panics (its table has a name for each of
    the runes 0 to 31 it is asked for), and what it returns is printable
    ASCII, whatever the bytes of the string are. *)
Theorem visibleString_total_printable :
  forall s, exists v, visibleString s = Ok v /\ printable v = true.
Proof.
  intros s. apply visibleString_printable.
Qed.

(** X16.  [visibleString] returns a string of printable ASCII as it
    is. *)
Theorem visibleString_printable_id :
  forall s, printable s = true -> visibleString s = Ok s.
Proof.
  intros s Hs. now apply visibleString_id.
Qed.

Lemma visibleString_printable_id_witness :
  visibleString "(abc-12) \+ ~" = Ok "(abc-12) \+ ~".
Proof.
  apply visibleString_printable_id. reflexivity.
Defined.


(** X18.  The text of a token and the runes it was made from: a [range]
    over [string(rs)] yields the runes [rs] again, with [RuneError] for
    each surrogate and each value outside the Unicode range, so
    [visibleString] renders a token's text rune by rune. *)
Theorem runes_round_trip :
  forall rs,
    runesOf (Rune.to_string rs) = map sanitize rs
    /\ visibleString (Rune.to_string rs) = visibleLoop (map sanitize rs) "".
Proof.
  intros rs. unfold visibleString. rewrite runesOf_to_string. now split.
Qed.

(** X19.  Rendering twice is rendering once: [visibleString] returns what
    it has returned as it is. *)
Theorem visibleString_idempotent :
  forall s v, visibleString s = Ok v -> visibleString v = Ok v.
Proof.
  intros s v H.
  destruct (visibleString_printable s) as (w & Hw & Hp).
  rewrite H in Hw. injection Hw as ->. now apply visibleString_id.
Qed.

Lemma visibleString_idempotent_witness :
  visibleString "<NUL>\n<DEL><U+00E9>" = Ok "<NUL>\n<DEL><U+00E9>".
Proof.
  apply (visibleString_idempotent
           (Rune.to_string [0; 10; 127; 233]%Z)).
  reflexivity.
Defined.

(** ** The class of atom runes *)





